(** * Token-tile rounds: generator and exact-recall solution search

    A shallow embedding of [precompute_full_recall.py] (dictionary index and
    solution search), [precompute_rounds.py] (round generator and batch
    driver), [evaluator.py] and the scoring function of [benchmark.py], with
    the properties of the specification proved about it.

    Conventions of the embedding:
    - a Python [str] is a [string] holding its UTF-8 bytes; Python orders
      strings by code point, and the bytewise order of UTF-8 encodings is the
      same order, so [String.le] is Python's [<=] on [str];
    - a value read by [json.load] is a [json]; a Python [dict] whose
      iteration order matters (the dictionary file, a round record) is an
      insertion-ordered association list with [dict_get]/[dict_set];
    - a [Counter] and the [defaultdict(list)] reverse index are [gmap]s, the
      sets [candidate_ids] and [seen_signatures] are [gset]s;
    - Python integers are [Z]; lengths, counts and list indices are [nat];
      a float obtained by dividing two counts is the rational [Q] it rounds;
    - a function that can raise returns a [result]. *)

From Stdlib Require Import ZArith QArith.
From stdpp Require Import base option list strings gmap gmultiset sorting.

Local Open Scope Z_scope.
Local Open Scope nat_scope.

(** ** Exceptions *)

Inductive exn : Type :=
| KeyError
| IndexError
| TypeError
| ValueError
| RuntimeError.

Inductive result (A : Type) : Type :=
| Ok (a : A)
| Raise (e : exn).
Arguments Ok {A} a.
Arguments Raise {A} e.

#[global] Instance result_ret : MRet result := λ A a, Ok a.
#[global] Instance result_bind : MBind result := λ A B f m,
  match m with
  | Ok a => f a
  | Raise e => Raise e
  end.

(** A [for] loop whose body may raise: the first exception ends the loop. *)
Fixpoint for_each {A S : Type} (body : S → A → result S) (s : S) (xs : list A)
  : result S :=
  match xs with
  | [] => Ok s
  | x :: xs' => s' ← body s x; for_each body s' xs'
  end.

(** [l[i]] for a non-negative index. *)
Definition index {A : Type} (l : list A) (i : nat) : result A :=
  match l !! i with
  | Some x => Ok x
  | None => Raise IndexError
  end.

(** ** JSON values and Python dicts *)

(** Numbers with a fraction do not occur in the records handled here and are
    left out. *)
#[warnings="-register-all"]
Inductive json : Type :=
| JNull
| JBool (b : bool)
| JInt (n : Z)
| JStr (s : string)
| JList (xs : list json)
| JDict (kvs : list (string * json)).

(** [d.get(k)] *)
Fixpoint dict_get {V : Type} (d : list (string * V)) (k : string) : option V :=
  match d with
  | [] => None
  | (k', v) :: d' => if decide (k' = k) then Some v else dict_get d' k
  end.

(** [d[k] = v]: an existing key keeps its position, a new one goes last. *)
Fixpoint dict_set {V : Type} (d : list (string * V)) (k : string) (v : V)
  : list (string * V) :=
  match d with
  | [] => [(k, v)]
  | (k', v') :: d' =>
      if decide (k' = k) then (k, v) :: d' else (k', v') :: dict_set d' k v
  end.

(** [list(d.keys())] *)
Definition dict_keys {V : Type} (d : list (string * V)) : list string := d.*1.

(** A Python dict holds each key once. *)
Definition dict_wf {V : Type} (d : list (string * V)) : Prop :=
  NoDup (dict_keys d).

(** [j[k]] on a JSON value: [KeyError] on a missing key, [TypeError] when [j]
    cannot be subscripted by a string. *)
Definition subscript (j : json) (k : string) : result json :=
  match j with
  | JDict d =>
      match dict_get d k with
      | Some v => Ok v
      | None => Raise KeyError
      end
  | _ => Raise TypeError
  end.

(** [isinstance(j, str)] *)
Definition is_str (j : json) : bool :=
  match j with
  | JStr _ => true
  | _ => false
  end.

Definition as_str (j : json) : result string :=
  match j with
  | JStr s => Ok s
  | _ => Raise TypeError
  end.

Fixpoint as_strs (xs : list json) : result (list string) :=
  match xs with
  | [] => Ok []
  | x :: xs' => s ← as_str x; ss ← as_strs xs'; Ok (s :: ss)
  end.

(** [e[variant]["tokens"]], read as a list of token strings, the type the
    source declares for tile and token lists ([List[str]]). Every use in
    the source is behind [is_entry_ok], directly or through the word pool,
    where the value is a non-empty list of [str]. Python does not check the
    declared type: on a value of another shape it would go on with what it
    found, while the typed reading stops with [TypeError]; the statements
    about the functions that read tokens are therefore made for entries
    that pass [is_entry_ok] (see [validated]). *)
Definition entry_tokens (e : json) (variant : string) : result (list string) :=
  v ← subscript e variant;
  toks ← subscript v "tokens";
  match toks with
  | JList xs => as_strs xs
  | _ => Raise TypeError
  end.

(** [dictionary[w][variant]["tokens"]] *)
Definition word_tokens (dictionary : list (string * json)) (w variant : string)
  : result (list string) :=
  match dict_get dictionary w with
  | Some e => entry_tokens e variant
  | None => Raise KeyError
  end.

(** ** Counters *)

(** [Counter(xs)] *)
Definition Counter (xs : list string) : gmap string nat :=
  foldl (λ c t, <[t := S (default 0 (c !! t))]> c) ∅ xs.

(** [c.keys()] *)
Definition counter_keys (c : gmap string nat) : list string := (map_to_list c).*1.

(** ** The [random] module

    The generator draws from Python's global generator through
    [random.seed], [random.sample], [random.choice] and [random.shuffle].
    The embedding threads the generator state [G] explicitly and takes the
    module as an interface with its documented contract: a sample of [k]
    elements is drawn without replacement, [choice] reads the sequence at a
    position below its length, and a shuffle is a rearrangement. *)
Class Random (G : Type) : Type := {
  rand_seed : Z → G;
  rand_sample : list string → nat → G → list string * G;
  rand_below : nat → G → nat * G;
  rand_shuffle : list string → G → list string * G;
  rand_sample_spec pop k g :
    k ≤ length pop →
    (rand_sample pop k g).1 ⊆+ pop ∧ length (rand_sample pop k g).1 = k;
  rand_below_spec n g : 0 < n → (rand_below n g).1 < n;
  rand_shuffle_spec xs g : (rand_shuffle xs g).1 ≡ₚ xs
}.

(** [random.sample(population, k)]: [ValueError] when [k] is negative or
    larger than the population. *)
Definition random_sample `{Random G} (population : list string) (k : Z) (g : G)
  : result (list string * G) :=
  if ((k <? 0) || (Z.of_nat (length population) <? k))%Z then Raise ValueError
  else Ok (rand_sample population (Z.to_nat k) g).

(** [random.choice(seq)]: [IndexError] on an empty sequence. *)
Definition random_choice `{Random G} (seq : list string) (g : G)
  : result (string * G) :=
  match seq with
  | [] => Raise IndexError
  | _ :: _ =>
      let '(i, g') := rand_below (length seq) g in
      x ← index seq i; Ok (x, g')
  end.

(** A small generator used to run the embedding on concrete inputs: the
    state is a counter, a draw rotates the sequence by it. *)
Definition rotor_step (g : nat) : nat := S g.

#[local] Program Instance rotor : Random nat := {|
  rand_seed z := Z.to_nat z;
  rand_sample pop k g := (take k (rotate g pop), rotor_step g);
  rand_below n g := (g `mod` n, rotor_step g);
  rand_shuffle xs g := (rotate g xs, rotor_step g)
|}.
Next Obligation.
  intros pop k g Hk; simpl. split.
  - transitivity (rotate g pop).
    + apply sublist_submseteq, sublist_take.
    + apply Permutation_submseteq. unfold rotate.
      rewrite Permutation_app_comm. by rewrite take_drop.
  - rewrite length_take, length_rotate. lia.
Qed.
Next Obligation. intros n g Hn; simpl. apply Nat.mod_upper_bound. lia. Qed.
Next Obligation.
  intros xs g; simpl. unfold rotate.
  rewrite Permutation_app_comm. by rewrite take_drop.
Qed.

(** ** [precompute_full_recall.py] *)

Module FullRecall.

Definition is_entry_ok (entry : json) (variant : string) : bool :=
  match entry with
  | JDict e =>
      match dict_get e variant with
      | Some (JDict v) =>
          match dict_get v "tokens" with
          | Some (JList toks) => (0 <? length toks)%nat && forallb is_str toks
          | _ => false
          end
      | _ => false
      end
  | _ => false
  end.

Record indices : Type := Indices {
  word_list : list string;
  word_token_counters : list (gmap string nat);
  token_to_word_ids : gmap string (list nat)
}.

Definition empty_indices : indices := Indices [] [] ∅.

(** [token_to_word_ids[t].append(idx)] on a [defaultdict(list)] *)
Definition append_id (idx : nat) (m : gmap string (list nat)) (t : string)
  : gmap string (list nat) :=
  <[t := default [] (m !! t) ++ [idx]]> m.

(** One iteration of the loop of [build_indices]. *)
Definition build_indices_step (variant : string) (ix : indices)
    (we : string * json) : result indices :=
  if negb (is_entry_ok we.2 variant) then Ok ix
  else
    toks ← entry_tokens we.2 variant;
    let c := Counter toks in
    let idx := length (word_list ix) in
    Ok (Indices (word_list ix ++ [we.1])
                (word_token_counters ix ++ [c])
                (foldl (append_id idx) (token_to_word_ids ix) (counter_keys c))).

Definition build_indices (dictionary : list (string * json)) (variant : string)
  : result indices :=
  for_each (build_indices_step variant) empty_indices dictionary.

Definition multiset_subset (needed available : gmap string nat) : bool :=
  forallb (λ tn, negb (default 0 (available !! tn.1) <? tn.2)%nat)
          (map_to_list needed).

(** The candidate loop: [ids = token_to_word_ids.get(t)], and
    [candidate_ids.update(ids)] when [ids] is neither [None] nor empty. *)
Definition add_candidates (token_to_word_ids : gmap string (list nat))
    (candidate_ids : gset nat) (t : string) : gset nat :=
  match token_to_word_ids !! t with
  | Some (i :: ids) => candidate_ids ∪ list_to_set (i :: ids)
  | _ => candidate_ids
  end.

(** The test loop: one candidate index. *)
Definition test_candidate (word_list : list string)
    (word_token_counters : list (gmap string nat))
    (tiles_counter : gmap string nat)
    (solutions : list string) (idx : nat) : result (list string) :=
  c ← index word_token_counters idx;
  if multiset_subset c tiles_counter then
    w ← index word_list idx; Ok (solutions ++ [w])
  else Ok solutions.

(** The order in which Python enumerates the [set] of candidates is hidden
    by the final sort; the embedding enumerates it with [elements]. *)
Definition compute_solutions_for_round (tiles : list string)
    (word_list : list string)
    (word_token_counters : list (gmap string nat))
    (token_to_word_ids : gmap string (list nat)) : result (list string) :=
  let tiles_counter := Counter tiles in
  let candidate_ids : gset nat :=
    foldl (add_candidates token_to_word_ids) ∅ (counter_keys tiles_counter) in
  solutions ← for_each (test_candidate word_list word_token_counters tiles_counter)
                       [] (elements candidate_ids);
  Ok (merge_sort String.le solutions).

(** The command line, without the file paths. *)
Record args : Type := Args {
  variant : string;
  verify_round_variant : bool
}.

(** The variant check of [main], under [--verify_round_variant]. *)
Definition check_variant (a : args) (r : list (string * json)) : result unit :=
  if verify_round_variant a then
    match dict_get r "variant" with
    | Some (JStr rv) => if decide (rv = variant a) then Ok () else Raise ValueError
    | _ => Raise ValueError
    end
  else Ok ().

(** [tiles = r.get("tiles")] with the validation of [main]. *)
Definition get_tiles (r : list (string * json)) : result (list string) :=
  match dict_get r "tiles" with
  | Some (JList ts) => if forallb is_str ts then as_strs ts else Raise ValueError
  | _ => Raise ValueError
  end.

(** The body of the loop of [main]: the record that is written. *)
Definition enrich (a : args) (ix : indices) (r : list (string * json))
  : result (list (string * json)) :=
  _ ← check_variant a r;
  tiles ← get_tiles r;
  solutions ← compute_solutions_for_round tiles (word_list ix)
                (word_token_counters ix) (token_to_word_ids ix);
  let r := dict_set r "all_solutions" (JList (JStr <$> solutions)) in
  let r := dict_set r "n_solutions" (JInt (Z.of_nat (length solutions))) in
  Ok r.

(** The loop of [main] over the input records; [out_f] is what has been
    written so far, and stays in the file when a record raises. *)
Fixpoint main_loop (a : args) (ix : indices) (rounds : list (list (string * json)))
    (out_f : list (list (string * json)))
  : list (list (string * json)) * result unit :=
  match rounds with
  | [] => (out_f, Ok ())
  | r :: rounds' =>
      match enrich a ix r with
      | Ok r' => main_loop a ix rounds' (out_f ++ [r'])
      | Raise e => (out_f, Raise e)
      end
  end.

(** [main]: the lines of the output file ([None] when it was never opened)
    and how the run ended. *)
Definition main (a : args) (dictionary : list (string * json))
    (rounds : list (list (string * json)))
  : option (list (list (string * json))) * result unit :=
  match build_indices dictionary (variant a) with
  | Raise e => (None, Raise e)
  | Ok ix => let '(out_f, res) := main_loop a ix rounds [] in (Some out_f, res)
  end.

End FullRecall.

(** ** [precompute_rounds.py] *)

Module Rounds.

Definition is_entry_ok (entry : json) (variant : string) : bool :=
  match entry with
  | JDict e =>
      match dict_get e variant with
      | Some (JDict v) =>
          match dict_get v "tokens" with
          | Some (JList toks) => (0 <? length toks)%nat && forallb is_str toks
          | _ => false
          end
      | _ => false
      end
  | _ => false
  end.

(** One iteration of the loop of [build_word_pool]. *)
Definition build_word_pool_step (variant : string) (min_tokens max_tokens : Z)
    (pool : list string) (we : string * json) : result (list string) :=
  if negb (is_entry_ok we.2 variant) then Ok pool
  else
    toks ← entry_tokens we.2 variant;
    let n := Z.of_nat (length toks) in
    if ((min_tokens <=? n) && (n <=? max_tokens))%Z then Ok (pool ++ [we.1])
    else Ok pool.

Definition build_word_pool (dictionary : list (string * json)) (variant : string)
    (min_tokens max_tokens : Z) : result (list string) :=
  for_each (build_word_pool_step variant min_tokens max_tokens) [] dictionary.

(** The loop over [range(max_attempts)] returns in its first iteration. *)
Definition pick_targets `{Random G} (pool : list string)
    (dictionary : list (string * json)) (variant : string) (k_targets : Z)
    (max_attempts : Z) (g : G) : result (list string * G) :=
  if (Z.of_nat (length pool) <? k_targets)%Z then Raise ValueError
  else if (0 <? max_attempts)%Z then random_sample pool k_targets g
  else Raise RuntimeError.

(** The loop of [sample_distractor_tokens], [n] iterations to go. *)
Fixpoint sample_distractor_tokens_loop `{Random G} (n : nat) (pool : list string)
    (dictionary : list (string * json)) (variant : string)
    (distractors : list string) (g : G) : result (list string * G) :=
  match n with
  | O => Ok (distractors, g)
  | S n' =>
      '(w, g1) ← random_choice pool g;
      toks ← word_tokens dictionary w variant;
      '(t, g2) ← random_choice toks g1;
      sample_distractor_tokens_loop n' pool dictionary variant
                                    (distractors ++ [t]) g2
  end.

Definition sample_distractor_tokens `{Random G} (pool : list string)
    (dictionary : list (string * json)) (variant : string) (n_distractors : Z)
    (g : G) : result (list string * G) :=
  sample_distractor_tokens_loop (Z.to_nat n_distractors) pool dictionary
                                variant [] g.

(** One iteration of the loop over [targets]; the state is
    [(tiles, target_map)]. *)
Definition add_target (dictionary : list (string * json)) (variant : string)
    (st : list string * list (string * list string)) (w : string)
  : result (list string * list (string * list string)) :=
  toks ← word_tokens dictionary w variant;
  Ok (st.1 ++ toks, dict_set st.2 w toks).

Definition round_tiles_from_targets `{Random G} (targets : list string)
    (dictionary : list (string * json)) (variant : string) (n_distractors : Z)
    (pool_for_distractors : list string) (shuffle_tiles : bool) (g : G)
  : result (list string * list (string * list string) * G) :=
  st ← for_each (add_target dictionary variant) ([], []) targets;
  '(ds, g1) ← sample_distractor_tokens pool_for_distractors dictionary variant
                                       n_distractors g;
  let tiles := st.1 ++ ds in
  if shuffle_tiles then
    let '(tiles', g2) := rand_shuffle tiles g1 in Ok (tiles', st.2, g2)
  else Ok (tiles, st.2, g1).

(** The command line, without the file paths. *)
Record args : Type := Args {
  n_rounds : Z;
  variant : string;
  k_targets : Z;
  distractors : Z;
  seed : Z;
  min_tokens : Z;
  max_tokens : Z;
  max_tiles : Z;
  ensure_unique_rounds : bool
}.

(** The order of Python on [(token, count)] tuples. *)
Definition item_le (x y : string * nat) : Prop :=
  if decide (x.1 = y.1) then x.2 ≤ y.2 else String.le x.1 y.1.

#[global] Instance item_le_dec : RelDecision item_le.
Proof. intros x y. unfold item_le. case_decide; apply _. Defined.

(** [tuple(sorted(Counter(tiles).items()))] *)
Definition signature (tiles : list string) : list (string * nat) :=
  merge_sort item_le (map_to_list (Counter tiles)).

(** The dict literal [round_obj]. *)
Definition round_obj (a : args) (written : Z) (tiles : list string)
    (target_map : list (string * list string)) : list (string * json) :=
  [ ("round_id", JInt written);
    ("variant", JStr (variant a));
    ("tiles", JList (JStr <$> tiles));
    ("targets", JList (JStr <$> dict_keys target_map));
    ("target_tokens",
     JDict ((λ wt : string * list string, (wt.1, JList (JStr <$> wt.2)))
            <$> target_map));
    ("meta", JDict [ ("k_targets", JInt (k_targets a));
                     ("distractors", JInt (distractors a));
                     ("min_tokens", JInt (min_tokens a));
                     ("max_tokens", JInt (max_tokens a));
                     ("seed", JInt (seed a)) ]) ].

(** The variables of the loop of [main]; [out_f] is the lines written to the
    output file, [rng] the state of the random generator. *)
Record loop_state (G : Type) : Type := LoopState {
  written : Z;
  attempts : Z;
  seen_signatures : gset (list (string * nat));
  out_f : list (list (string * json));
  rng : G
}.
Arguments LoopState {G}.
Arguments written {G}.
Arguments attempts {G}.
Arguments seen_signatures {G}.
Arguments out_f {G}.
Arguments rng {G}.

(** One iteration of the [while] loop of [main]; [continue] returns the
    state with the attempt counted and nothing written. *)
Definition main_body `{Random G} (a : args) (dictionary : list (string * json))
    (pool : list string) (st : loop_state G) : result (loop_state G) :=
  let attempts' := (attempts st + 1)%Z in
  '(targets, g1) ← pick_targets pool dictionary (variant a) (k_targets a)
                                2000%Z (rng st);
  '(tiles, target_map, g2) ← round_tiles_from_targets targets dictionary
                               (variant a) (distractors a) pool true g1;
  let retry := LoopState (written st) attempts' (seen_signatures st)
                         (out_f st) g2 in
  if (max_tiles a <? Z.of_nat (length tiles))%Z then Ok retry
  else
    let sig := signature tiles in
    if ensure_unique_rounds a && bool_decide (sig ∈ seen_signatures st)
    then Ok retry
    else
      let seen :=
        if ensure_unique_rounds a then seen_signatures st ∪ {[ sig ]}
        else seen_signatures st in
      Ok (LoopState (written st + 1)%Z attempts' seen
                    (out_f st ++ [round_obj a (written st) tiles target_map])
                    g2).

(** The [while] loop of [main]. [None]: the fuel ran out before the loop
    condition failed; [Some (st, res)]: the loop ended in state [st], by its
    condition ([res = Ok ()]) or by an exception of the body. *)
Fixpoint main_loop `{Random G} (fuel : nat) (a : args)
    (dictionary : list (string * json)) (pool : list string)
    (max_attempts : Z) (st : loop_state G)
  : option (loop_state G * result unit) :=
  if ((written st <? n_rounds a) && (attempts st <? max_attempts))%Z then
    match fuel with
    | O => None
    | S fuel' =>
        match main_body a dictionary pool st with
        | Ok st' => main_loop fuel' a dictionary pool max_attempts st'
        | Raise e => Some (st, Raise e)
        end
    end
  else Some (st, Ok ()).

(** What a run leaves behind: the lines of the output file ([None] when the
    file was never opened) and how the run ended. *)
Record run : Type := Run {
  out_file : option (list (list (string * json)));
  outcome : result unit
}.

Definition main `{Random G} (a : args) (dictionary : list (string * json))
  : option run :=
  let g := rand_seed (seed a) in
  match build_word_pool dictionary (variant a) (min_tokens a) (max_tokens a) with
  | Raise e => Some (Run None (Raise e))
  | Ok [] => Some (Run None (Raise RuntimeError))
  | Ok pool =>
      let max_attempts := (n_rounds a * 20)%Z in
      '(st, res) ← main_loop (Z.to_nat max_attempts) a dictionary pool
                             max_attempts (LoopState 0%Z 0%Z ∅ [] g);
      match res with
      | Raise e => Some (Run (Some (out_f st)) (Raise e))
      | Ok _ =>
          if (written st <? n_rounds a)%Z
          then Some (Run (Some (out_f st)) (Raise RuntimeError))
          else Some (Run (Some (out_f st)) (Ok ()))
      end
  end.

End Rounds.

Import FullRecall.

(** ** The specification's notions *)

(** The token multiset of a token sequence. *)
Definition multiset (xs : list string) : gmultiset string := list_to_set_disj xs.

(** The entries of the dictionary that pass validation for a variant, each
    with its token sequence. *)
Definition accepted (dictionary : list (string * json)) (variant : string)
  : list (string * list string) :=
  omap (λ we : string * json,
          if FullRecall.is_entry_ok we.2 variant then
            match entry_tokens we.2 variant with
            | Ok toks => Some (we.1, toks)
            | Raise _ => None
            end
          else None) dictionary.

(** The brute-force solution set [{w : multiset(w.tokens) ⊆ multiset(tiles)}],
    by direct comparison over every accepted word. *)
Definition brute_force (dictionary : list (string * json)) (variant : string)
    (tiles : list string) : list string :=
  (filter (λ wt : string * list string, multiset wt.2 ⊆ multiset tiles)
          (accepted dictionary variant)).*1.

(** [ComputeSolutions(tiles, Index)]: build the index, then search. *)
Definition solutions_of (dictionary : list (string * json)) (variant : string)
    (tiles : list string) : result (list string) :=
  ix ← FullRecall.build_indices dictionary variant;
  FullRecall.compute_solutions_for_round tiles (FullRecall.word_list ix)
    (FullRecall.word_token_counters ix) (FullRecall.token_to_word_ids ix).

(** ** Invariants and notions used in the statements *)

(** What the index of a list of accepted entries looks like. *)
Definition index_of (acc : list (string * list string)) (ix : indices) : Prop :=
  word_list ix = acc.*1 ∧
  word_token_counters ix = Counter <$> acc.*2 ∧
  ∀ t i, i ∈ default [] (token_to_word_ids ix !! t)
         ↔ ∃ wt, acc !! i = Some wt ∧ t ∈ wt.2.

(** The word a candidate index contributes to the solutions, if any. *)
Definition pick (word_list : list string)
    (word_token_counters : list (gmap string nat))
    (tiles_counter : gmap string nat) (idx : nat) : option string :=
  c ← word_token_counters !! idx;
  if multiset_subset c tiles_counter then word_list !! idx else None.

(** The words of the pool: accepted entries whose length is in range. *)
Definition in_range (min_tokens max_tokens : Z) (wt : string * list string)
  : Prop :=
  (min_tokens ≤ Z.of_nat (length wt.2) ≤ max_tokens)%Z.

(** The loop condition of [Rounds.main]. *)
Definition loop_cond {G : Type} (a : Rounds.args) (max_attempts : Z)
    (st : Rounds.loop_state G) : bool :=
  ((Rounds.written st <? Rounds.n_rounds a)
   && (Rounds.attempts st <? max_attempts))%Z.

(** Properties of the lines written by the generator. *)
Definition within_max_tiles (a : Rounds.args) (r : list (string * json)) : Prop :=
  ∃ tiles, get_tiles r = Ok tiles
           ∧ (Z.of_nat (length tiles) ≤ Rounds.max_tiles a)%Z.

Definition distinct_signatures (lines : list (list (string * json))) : Prop :=
  ∃ tiless,
    Forall2 (λ r tiles, get_tiles r = Ok tiles) lines tiless ∧
    NoDup (Rounds.signature <$> tiless) ∧
    ∀ i j t1 t2, tiless !! i = Some t1 → tiless !! j = Some t2 → i ≠ j →
                 ¬ t1 ≡ₚ t2.

(** The state in which the loop of [Rounds.main] starts. *)
Definition init_state `{Random G} (a : Rounds.args) : Rounds.loop_state G :=
  Rounds.LoopState 0%Z 0%Z ∅ [] (rand_seed (Rounds.seed a)).

(** The retry budget of [Rounds.main]. *)
Definition budget (a : Rounds.args) : Z := (Rounds.n_rounds a * 20)%Z.

(** How [Rounds.main] reports the end of its loop. *)
Definition report {G : Type} (a : Rounds.args) (st : Rounds.loop_state G)
    (res : result unit) : Rounds.run :=
  match res with
  | Raise e => Rounds.Run (Some (Rounds.out_f st)) (Raise e)
  | Ok _ =>
      if (Rounds.written st <? Rounds.n_rounds a)%Z
      then Rounds.Run (Some (Rounds.out_f st)) (Raise RuntimeError)
      else Rounds.Run (Some (Rounds.out_f st)) (Ok ())
  end.

(** The state after a rejected candidate: the attempt is counted, nothing is
    written or registered. *)
Definition retry_state {G : Type} (st : Rounds.loop_state G) (g : G)
  : Rounds.loop_state G :=
  Rounds.LoopState (Rounds.written st) (Rounds.attempts st + 1)%Z
                   (Rounds.seen_signatures st) (Rounds.out_f st) g.

(** The partial output of a run is discarded: the file is absent or empty. *)
Definition output_discarded (run : Rounds.run) : Prop :=
  Rounds.out_file run = None ∨ Rounds.out_file run = Some [].

(** ** Concrete inputs *)

(** A dictionary file entry [{variant: {"tokens": [...]}}]. *)
Definition entry (variant : string) (toks : list string) : json :=
  JDict [(variant, JDict [("tokens", JList (JStr <$> toks))])].

Definition cat_dict : list (string * json) :=
  [("cat", entry "sp" ["Ġcat"]); ("catnip", entry "sp" ["Ġcat"; "nip"])].

Definition one_word_dict : list (string * json) := [("a", entry "sp" ["a"])].

(** Two unique rounds of one target and no distractor. *)
Definition two_unique_args : Rounds.args :=
  Rounds.Args 2 "sp" 1 0 7 1 4 80 true.

Definition pet_dict : list (string * json) :=
  [("cat", entry "sp" ["Ġcat"]); ("catnip", entry "sp" ["Ġcat"; "nip"]);
   ("nip", entry "sp" ["Ġn"; "ip"]); ("bad", JDict [("sp", JNull)])].

(** Three unique rounds of one target and one distractor. *)
Definition pet_args : Rounds.args := Rounds.Args 3 "sp" 1 1 7 1 4 80 true.

(** The word has an entry in the dictionary that passes [is_entry_ok] for
    the variant, as every word of the pool of [main] has. *)
Definition validated (dictionary : list (string * json)) (variant : string)
    (w : string) : Prop :=
  ∃ e, dict_get dictionary w = Some e ∧ Rounds.is_entry_ok e variant = true.

(** The word pool of a run, as [Rounds.build_word_pool] computes it. *)
Definition pool_of (a : Rounds.args) (dictionary : list (string * json))
  : list string :=
  (filter (in_range (Rounds.min_tokens a) (Rounds.max_tokens a))
          (accepted dictionary (Rounds.variant a))).*1.

(** What is asked of a written round: its [targets] are [k_targets] words
    drawn from the pool without replacement, each with a token sequence in
    the dictionary; these token sequences, taken together and hence each on
    its own, are a sub-multiset of the round's tiles; and every target is
    among the solutions the search finds for the tiles. *)
Definition targets_solvable (a : Rounds.args)
    (dictionary : list (string * json)) (r : list (string * json)) : Prop :=
  ∃ tiles targets tokss sols,
    get_tiles r = Ok tiles ∧
    dict_get r "targets" = Some (JList (JStr <$> targets)) ∧
    Z.of_nat (length targets) = Rounds.k_targets a ∧
    targets ⊆+ pool_of a dictionary ∧
    Forall2 (λ w toks, word_tokens dictionary w (Rounds.variant a) = Ok toks)
            targets tokss ∧
    multiset (concat tokss) ⊆ multiset tiles ∧
    Forall (λ toks, multiset toks ⊆ multiset tiles) tokss ∧
    solutions_of dictionary (Rounds.variant a) tiles = Ok sols ∧
    ∀ w, w ∈ targets → w ∈ sols.

(** ** Python values and string built-ins used by the scorers *)

(** [str.strip()] and [str.lower()] act on Unicode text; the scorers are
    embedded over any pair of functions standing for them. *)
Class PyStr : Type := {
  str_strip : string → string;
  str_lower : string → string
}.

(** [s.replace(old, new)] for a non-empty [old]: the occurrences are
    replaced from the left, without overlap; [skip] counts the characters of
    a replaced occurrence still to pass over. *)
Fixpoint str_replace_go (old new : string) (skip : nat) (s : string) : string :=
  match s with
  | EmptyString => EmptyString
  | String c s' =>
      match skip with
      | S k => str_replace_go old new k s'
      | O =>
          if String.prefix old s
          then new +:+ str_replace_go old new (String.length old - 1) s'
          else String c (str_replace_go old new 0 s')
      end
  end.

Definition str_replace (old new s : string) : string :=
  str_replace_go old new 0 s.

(** The string ["\n"]: the byte 10. *)
Definition newline : string :=
  String (Ascii.Ascii false true false true false false false false) EmptyString.

(** ["".join(xs)] *)
Definition str_join (xs : list string) : string := String.concat "" xs.

(** [d.get(k)] as a Python value: [None] (here [JNull]) for a missing key. *)
Definition py_get (d : list (string * json)) (k : string) : json :=
  default JNull (dict_get d k).

(** The truth value of a JSON value in a condition. *)
Definition truthy (j : json) : bool :=
  match j with
  | JNull => false
  | JBool b => b
  | JInt n => negb (n =? 0)%Z
  | JStr s => negb (bool_decide (s = ""))
  | JList xs => match xs with [] => false | _ :: _ => true end
  | JDict kvs => match kvs with [] => false | _ :: _ => true end
  end.

(** [used == j] for a list [used] of [str]: a [str] equals only the same
    [str], and a list only a list of equal elements. *)
Fixpoint strs_eq (xs : list json) (used : list string) : bool :=
  match xs, used with
  | [], [] => true
  | JStr s :: xs', t :: used' => bool_decide (s = t) && strs_eq xs' used'
  | _, _ => false
  end.

Definition eq_str_list (used : list string) (j : json) : bool :=
  match j with
  | JList xs => strs_eq xs used
  | _ => false
  end.

(** ** [evaluator.py] *)

Module Evaluator.

Inductive error : Type := AttributeError.

Definition normalize_concat_to_word `{PyStr} (concat : string) : string :=
  let s := str_replace "Ċ" newline (str_replace "Ġ" " " concat) in
  str_lower (str_strip s).

(** [((entry.get(variant) or {}).get("tokens")) if isinstance(entry, dict)
    else None]; [.get] on a value that is true and not a dict raises
    [AttributeError]. *)
Definition canonical_tokens (entry : json) (variant : string) : error + json :=
  match entry with
  | JDict e =>
      let x := py_get e variant in
      match (if truthy x then x else JDict []) with
      | JDict xd => inr (py_get xd "tokens")
      | _ => inl AttributeError
      end
  | _ => inr JNull
  end.

(** The dict literals appended to [details]. *)
Definition detail (word : string) (used : list string) (concat_field : string)
    (status : string) (more : list (string * json)) : list (string * json) :=
  [ ("word", JStr word); ("used_tokens", JList (JStr <$> used));
    ("concat", JStr concat_field); ("status", JStr status) ] ++ more.

(** [any(used_counter[t] > tiles_counter.get(t, 0) for t in used_counter)] *)
Definition overuse (used_counter tiles_counter : gmap string nat) : bool :=
  existsb (λ tn, (default 0 (tiles_counter !! tn.1) <? tn.2)%nat)
          (map_to_list used_counter).

(** The body of the loop of [evaluate_round]: the status counted for an
    item and the detail recorded for it. *)
Definition judge `{PyStr} (tiles_counter : gmap string nat)
    (dictionary : list (string * json)) (variant : string)
    (item : list (string * json))
  : error + (string * list (string * json)) :=
  match py_get item "word", py_get item "used_tokens", py_get item "concat" with
  | JStr word, JList used_j, JStr concat_field =>
      if negb (forallb is_str used_j)
      then inr ("format_error",
                [("item", JDict item); ("status", JStr "format_error")])
      else
        let used := omap (λ j, match j with JStr s => Some s | _ => None end)
                         used_j in
        let word_norm := str_lower (str_strip word) in
        let used_counter := Counter used in
        if overuse used_counter tiles_counter
        then inr ("hallucinated_token_or_overuse",
                  detail word used concat_field
                         "hallucinated_token_or_overuse" [])
        else
          let concat_exact := str_join used in
          if negb (bool_decide (concat_field = concat_exact))
          then inr ("concat_field_mismatch",
                    detail word used concat_field "concat_field_mismatch"
                           [("expected_concat", JStr concat_exact)])
          else
            let expected_word := normalize_concat_to_word concat_exact in
            if negb (bool_decide (word_norm = expected_word))
            then inr ("word_normalization_mismatch",
                      detail word used concat_field
                             "word_normalization_mismatch"
                             [("expected_word", JStr expected_word)])
            else
              match py_get dictionary word_norm with
              | JNull =>
                  inr ("not_in_dictionary",
                       detail word_norm used concat_field "not_in_dictionary" [])
              | entry =>
                  match canonical_tokens entry variant with
                  | inl e => inl e
                  | inr JNull =>
                      inr ("no_canonical_variant",
                           detail word_norm used concat_field
                                  "no_canonical_variant" [])
                  | inr canonical =>
                      if eq_str_list used canonical
                      then inr ("correct_canonical",
                                detail word_norm used concat_field
                                       "correct_canonical" [])
                      else inr ("alt_tokenisation",
                                detail word_norm used concat_field
                                       "alt_tokenisation"
                                       [("canonical", canonical)])
                  end
              end
  | _, _, _ =>
      inr ("format_error",
           [("item", JDict item); ("status", JStr "format_error")])
  end.

(** The loop of [evaluate_round]; the state is [(stats, details)], and
    [stats[status] += 1] counts in a [Counter]. *)
Fixpoint evaluate_loop `{PyStr} (tiles_counter : gmap string nat)
    (dictionary : list (string * json)) (variant : string)
    (model_outputs : list (list (string * json)))
    (stats : list (string * nat)) (details : list (list (string * json)))
  : error + (list (string * nat) * list (list (string * json))) :=
  match model_outputs with
  | [] => inr (stats, details)
  | item :: rest =>
      match judge tiles_counter dictionary variant item with
      | inl e => inl e
      | inr (status, d) =>
          evaluate_loop tiles_counter dictionary variant rest
            (dict_set stats status (default 0 (dict_get stats status) + 1))
            (details ++ [d])
      end
  end.

(** [evaluate_round]: the returned dict
    [{"summary": dict(stats), "details": details}]. *)
Definition evaluate_round `{PyStr} (model_outputs : list (list (string * json)))
    (tile_tokens : list string) (dictionary : list (string * json))
    (variant : string) : error + list (string * json) :=
  match evaluate_loop (Counter tile_tokens) dictionary variant model_outputs
                      [] [] with
  | inl e => inl e
  | inr (stats, details) =>
      inr [ ("summary",
             JDict ((λ kv : string * nat, (kv.1, JInt (Z.of_nat kv.2)))
                    <$> stats));
            ("details", JList (JDict <$> details)) ]
  end.

End Evaluator.

(** A stand-in for [str.strip] and [str.lower] that agrees with Python on
    ASCII text, used to run the scorers on concrete inputs. *)
Definition ascii_lower_char (c : Ascii.ascii) : Ascii.ascii :=
  let n := Ascii.nat_of_ascii c in
  if (65 <=? n) && (n <=? 90) then Ascii.ascii_of_nat (n + 32) else c.

Fixpoint ascii_lower (s : string) : string :=
  match s with
  | EmptyString => EmptyString
  | String c s' => String (ascii_lower_char c) (ascii_lower s')
  end.

Definition ascii_is_space (c : Ascii.ascii) : bool :=
  let n := Ascii.nat_of_ascii c in
  ((9 <=? n) && (n <=? 13)) || ((28 <=? n) && (n <=? 32)).

Fixpoint ascii_lstrip (s : string) : string :=
  match s with
  | EmptyString => EmptyString
  | String c s' => if ascii_is_space c then ascii_lstrip s' else s
  end.

Definition ascii_strip (s : string) : string :=
  String.rev (ascii_lstrip (String.rev (ascii_lstrip s))).

#[local] Instance ascii_str : PyStr :=
  {| str_strip := ascii_strip; str_lower := ascii_lower |}.

(** The status recorded in a detail. *)
Definition has_status (status : string) (d : list (string * json)) : bool :=
  match dict_get d "status" with
  | Some (JStr s) => bool_decide (s = status)
  | _ => false
  end.

(** An item of the model output that passes the format checks. *)
Definition well_formed_item (item : list (string * json)) (word : string)
    (used : list string) (concat_field : string) : Prop :=
  py_get item "word" = JStr word ∧
  py_get item "used_tokens" = JList (JStr <$> used) ∧
  py_get item "concat" = JStr concat_field.


(** ** [benchmark.py] *)

Module Benchmark.

Definition K_MAX : nat := 20.

Definition normalize_concat_to_word `{PyStr} (concat : string) : string :=
  str_lower (str_strip (str_replace "Ċ" newline (str_replace "Ġ" " " concat))).

(** [isinstance(x, int)]: an [int], or a [bool], which Python counts as the
    integer 0 or 1. *)
Definition as_int (j : json) : option Z :=
  match j with
  | JInt n => Some n
  | JBool b => Some (if b then 1 else 0)%Z
  | _ => None
  end.

(** The variables of the loop of [evaluate_outputs]. *)
Record tally : Type := Tally {
  fmt_err : nat;
  index_oob : nat;
  index_reuse : nat;
  pred_words : gset string
}.

(** The body of the loop of [evaluate_outputs]. *)
Definition count_item `{PyStr} (tiles : list string) (st : tally) (it : json)
  : tally :=
  let bad_format :=
    Tally (fmt_err st + 1) (index_oob st) (index_reuse st) (pred_words st) in
  match it with
  | JDict d =>
      match dict_get d "idx" with
      | Some (JList xs) =>
          match mapM as_int xs with
          | None => bad_format
          | Some idx_list =>
              if existsb (λ x, (x <? 0) || (Z.of_nat (length tiles) <=? x))%Z
                         idx_list
              then Tally (fmt_err st) (index_oob st + 1) (index_reuse st)
                         (pred_words st)
              else if negb (size (list_to_set idx_list : gset Z)
                            =? length idx_list)
              then Tally (fmt_err st) (index_oob st) (index_reuse st + 1)
                         (pred_words st)
              else
                let used_tokens :=
                  omap (λ i, tiles !! Z.to_nat i) idx_list in
                let w := normalize_concat_to_word (str_join used_tokens) in
                Tally (fmt_err st) (index_oob st) (index_reuse st)
                      (pred_words st ∪ {[ w ]})
          end
      | _ => bad_format
      end
  | _ => bad_format
  end.

(** The loop over [outputs[:K_MAX]]. *)
Definition count_outputs `{PyStr} (outputs : list json) (tiles : list string)
  : tally :=
  foldl (count_item tiles) (Tally 0 0 0 ∅) (take K_MAX outputs).

(** The returned dict. The three ratios are Python floats; the model holds
    them as rationals. *)
Record metrics : Type := Metrics {
  n_output_items_raw : nat;
  n_pred_unique : nat;
  n_valid_unique : nat;
  n_solutions : nat;
  n_targets : nat;
  precision : Q;
  full_recall : Q;
  target_recall : Q;
  format_errors : nat;
  m_index_oob : nat;
  m_index_reuse : nat
}.

(** [(num / den) if den else 0.0]. On two ints Python's [/] gives the float
    nearest to their quotient; the model holds the quotient itself. *)
Definition ratio (num den : nat) : Q :=
  if den =? 0 then 0%Q
  else (inject_Z (Z.of_nat num) / inject_Z (Z.of_nat den))%Q.

Definition evaluate_outputs `{PyStr} (outputs : list json) (tiles : list string)
    (all_solutions targets : gset string) : metrics :=
  let st := count_outputs outputs tiles in
  let valid_hits := pred_words st ∩ all_solutions in
  let target_hits := pred_words st ∩ targets in
  let n_pred := size (pred_words st) in
  let n_valid := size valid_hits in
  let n_solutions := max 1 (size all_solutions) in
  let n_targets := max 1 (size targets) in
  Metrics (length outputs) n_pred n_valid (size all_solutions) (size targets)
          (ratio n_valid n_pred) (ratio n_valid n_solutions)
          (ratio (size target_hits) n_targets)
          (fmt_err st) (index_oob st) (index_reuse st).

End Benchmark.

(** * Properties *)

(** ** Reading validated entries *)

Lemma as_strs_fmap (l : list string) : as_strs (JStr <$> l) = Ok l.
Proof. induction l as [|s l IH]; csimpl; [done|]. by rewrite IH. Qed.

Lemma forallb_is_str (xs : list json) :
  forallb is_str xs = true → ∃ l, xs = JStr <$> l.
Proof.
  induction xs as [|x xs IH]; simpl; intros Hall.
  - by exists [].
  - apply andb_true_iff in Hall as [Hx Hxs].
    destruct (IH Hxs) as [l ->]. destruct x; try done.
    by exists (s :: l).
Qed.

Lemma is_entry_ok_tokens (e : json) (v : string) :
  is_entry_ok e v = true → ∃ toks, entry_tokens e v = Ok toks ∧ toks ≠ [].
Proof.
  unfold is_entry_ok, entry_tokens, subscript.
  destruct e as [| | | | |d]; try done.
  destruct (dict_get d v) as [[| | | | |dv]|]; try done; simpl.
  destruct (dict_get dv "tokens") as [[| | | |xs|]|]; try done; simpl.
  intros [Hlen Hall]%andb_true_iff.
  destruct (forallb_is_str _ Hall) as [l ->].
  exists l. split; [apply as_strs_fmap|].
  intros ->. simpl in Hlen. done.
Qed.

Lemma rounds_is_entry_ok (e : json) (v : string) :
  Rounds.is_entry_ok e v = is_entry_ok e v.
Proof. reflexivity. Qed.

(** ** Counters and multisets *)

Lemma Counter_foldl (xs : list string) (c : gmap string nat) (t : string) :
  default 0 (foldl (λ c t, <[t := S (default 0 (c !! t))]> c) c xs !! t)
  = default 0 (c !! t) + multiplicity t (multiset xs).
Proof.
  revert c. induction xs as [|x xs IH]; intros c; simpl.
  - unfold multiset. simpl. rewrite multiplicity_empty. lia.
  - rewrite IH. unfold multiset. simpl. rewrite multiplicity_disj_union.
    rewrite multiplicity_singleton.
    destruct (decide (t = x)) as [->|Hne].
    + rewrite lookup_insert_eq. simpl. lia.
    + rewrite lookup_insert_ne by done. lia.
Qed.

Lemma Counter_foldl_pos (xs : list string) (c : gmap string nat) :
  (∀ t n, c !! t = Some n → 0 < n) →
  ∀ t n, foldl (λ c t, <[t := S (default 0 (c !! t))]> c) c xs !! t = Some n
         → 0 < n.
Proof.
  revert c. induction xs as [|x xs IH]; intros c Hc t n; simpl; [apply Hc|].
  apply IH. intros t' n'. destruct (decide (x = t')) as [->|Hne].
  - rewrite lookup_insert_eq. intros [= <-]. lia.
  - rewrite lookup_insert_ne by done. apply Hc.
Qed.

Lemma Counter_count (xs : list string) (t : string) :
  default 0 (Counter xs !! t) = multiplicity t (multiset xs).
Proof. unfold Counter. rewrite Counter_foldl, lookup_empty. done. Qed.

Lemma Counter_pos (xs : list string) (t : string) (n : nat) :
  Counter xs !! t = Some n → 0 < n.
Proof. apply Counter_foldl_pos. intros t' n'. by rewrite lookup_empty. Qed.

Lemma Counter_lookup (xs : list string) (t : string) (n : nat) :
  Counter xs !! t = Some n ↔ n = multiplicity t (multiset xs) ∧ 0 < n.
Proof.
  pose proof (Counter_count xs t) as Hc. split.
  - intros Hn. split; [|by eapply Counter_pos]. rewrite Hn in Hc. done.
  - intros [-> Hpos]. destruct (Counter xs !! t) as [m|]; simpl in Hc.
    + by rewrite Hc.
    + lia.
Qed.

Lemma multiset_elem_of (xs : list string) (t : string) :
  0 < multiplicity t (multiset xs) ↔ t ∈ xs.
Proof.
  unfold multiset. rewrite <-elem_of_multiplicity. apply elem_of_list_to_set_disj.
Qed.

Lemma counter_keys_NoDup (c : gmap string nat) : NoDup (counter_keys c).
Proof. apply NoDup_fst_map_to_list. Qed.

Lemma elem_of_counter_keys (xs : list string) (t : string) :
  t ∈ counter_keys (Counter xs) ↔ t ∈ xs.
Proof.
  unfold counter_keys. rewrite list_elem_of_fmap. split.
  - intros [[t' n] [-> Hin]]. apply elem_of_map_to_list in Hin.
    apply Counter_lookup in Hin as [-> Hpos]. by apply multiset_elem_of.
  - intros Hin. apply multiset_elem_of in Hin.
    exists (t, multiplicity t (multiset xs)). split; [done|].
    apply elem_of_map_to_list. by apply Counter_lookup.
Qed.

Lemma multiset_subset_spec (xs ys : list string) :
  multiset_subset (Counter xs) (Counter ys) = true ↔ multiset xs ⊆ multiset ys.
Proof.
  unfold multiset_subset. rewrite forallb_forall. split.
  - intros Hall t. destruct (decide (0 < multiplicity t (multiset xs))) as [Hpos|];
      [|lia].
    specialize (Hall (t, multiplicity t (multiset xs))). simpl in Hall.
    rewrite Counter_count in Hall.
    rewrite negb_true_iff, Nat.ltb_ge in Hall. apply Hall.
    rewrite <-list_elem_of_In, elem_of_map_to_list.
    apply Counter_lookup. split; [reflexivity|exact Hpos].
  - intros Hsub [t n] Hin. simpl.
    rewrite <-list_elem_of_In, elem_of_map_to_list, Counter_lookup in Hin.
    destruct Hin as [-> _].
    rewrite Counter_count, negb_true_iff, Nat.ltb_ge. apply Hsub.
Qed.

Lemma foldl_append_id (idx : nat) (ks : list string) (m : gmap string (list nat))
    (t : string) :
  NoDup ks →
  default [] (foldl (append_id idx) m ks !! t)
  = default [] (m !! t) ++ (if decide (t ∈ ks) then [idx] else []).
Proof.
  intros Hnd. revert m. induction Hnd as [|k ks Hk Hnd IH]; intros m.
  - simpl. by rewrite app_nil_r.
  - simpl foldl. rewrite IH. unfold append_id.
    destruct (decide (t = k)) as [->|Hne].
    + rewrite lookup_insert_eq. cbn [default].
      destruct (decide (k ∈ ks)); [done|].
      destruct (decide (k ∈ k :: ks)) as [_|Hn]; [by rewrite app_nil_r|].
      destruct Hn. apply list_elem_of_here.
    + rewrite lookup_insert_ne by done.
      destruct (decide (t ∈ ks)) as [Hin|Hnin].
      * destruct (decide (t ∈ k :: ks)) as [_|Hn]; [done|].
        destruct Hn. by apply list_elem_of_further.
      * destruct (decide (t ∈ k :: ks)) as [[?|?]%elem_of_cons|_]; done.
Qed.

Lemma accepted_cons_ok (w : string) (e : json) (d : list (string * json))
    (v : string) (toks : list string) :
  is_entry_ok e v = true → entry_tokens e v = Ok toks →
  accepted ((w, e) :: d) v = (w, toks) :: accepted d v.
Proof. intros Hok Ht. unfold accepted. simpl. by rewrite Hok, Ht. Qed.

Lemma accepted_cons_skip (w : string) (e : json) (d : list (string * json))
    (v : string) :
  is_entry_ok e v = false → accepted ((w, e) :: d) v = accepted d v.
Proof. intros Hok. unfold accepted. simpl. by rewrite Hok. Qed.

Lemma index_of_empty : index_of [] empty_indices.
Proof.
  repeat split; simpl.
  - rewrite lookup_empty. simpl. by intros ?%elem_of_nil.
  - by intros (wt & ? & _).
Qed.

Lemma index_of_step (acc : list (string * list string)) (ix : indices)
    (w : string) (toks : list string) :
  index_of acc ix →
  index_of (acc ++ [(w, toks)])
    (Indices (word_list ix ++ [w]) (word_token_counters ix ++ [Counter toks])
       (foldl (append_id (length (word_list ix))) (token_to_word_ids ix)
              (counter_keys (Counter toks)))).
Proof.
  intros (Hwl & Hwtc & Hids). repeat split; simpl.
  - by rewrite Hwl, fmap_app.
  - by rewrite Hwtc, !fmap_app.
  - rewrite foldl_append_id by apply counter_keys_NoDup.
    rewrite elem_of_app, Hids. intros [(wt & Hi & Ht)|Hi].
    + exists wt. split; [|done]. by apply lookup_app_l_Some.
    + case_decide as Hk; [|by apply elem_of_nil in Hi].
      apply list_elem_of_singleton in Hi as ->.
      exists (w, toks). split; [|by apply elem_of_counter_keys].
      rewrite Hwl, length_fmap. by apply list_lookup_middle.
  - rewrite foldl_append_id by apply counter_keys_NoDup.
    rewrite elem_of_app, Hids. intros (wt & Hi & Ht).
    apply lookup_app_Some in Hi as [Hi|[Hlen Hi]].
    + left. by exists wt.
    + right. apply list_lookup_singleton_Some in Hi as [Hi <-].
      simpl in Ht. rewrite decide_True by (by apply elem_of_counter_keys).
      apply list_elem_of_singleton. rewrite Hwl, length_fmap. lia.
Qed.

Lemma build_indices_step_ok (v : string) (ix : indices) (w : string) (e : json)
    (toks : list string) :
  is_entry_ok e v = true → entry_tokens e v = Ok toks →
  build_indices_step v ix (w, e)
  = Ok (Indices (word_list ix ++ [w]) (word_token_counters ix ++ [Counter toks])
          (foldl (append_id (length (word_list ix))) (token_to_word_ids ix)
                 (counter_keys (Counter toks)))).
Proof. intros Hok Ht. unfold build_indices_step. simpl. by rewrite Hok, Ht. Qed.

Lemma build_indices_step_skip (v : string) (ix : indices) (w : string)
    (e : json) :
  is_entry_ok e v = false → build_indices_step v ix (w, e) = Ok ix.
Proof. intros Hok. unfold build_indices_step. simpl. by rewrite Hok. Qed.

Lemma build_indices_from (d : list (string * json)) (v : string)
    (acc : list (string * list string)) (ix : indices) :
  index_of acc ix →
  ∃ ix', for_each (build_indices_step v) ix d = Ok ix'
         ∧ index_of (acc ++ accepted d v) ix'.
Proof.
  revert acc ix. induction d as [|[w e] d IH]; intros acc ix Hix.
  - exists ix. by rewrite app_nil_r.
  - cbn [for_each]. destruct (is_entry_ok e v) eqn:Hok.
    + destruct (is_entry_ok_tokens _ _ Hok) as (toks & Ht & _).
      rewrite (build_indices_step_ok _ _ _ _ _ Hok Ht).
      rewrite (accepted_cons_ok _ _ _ _ _ Hok Ht).
      rewrite (cons_middle _ acc), app_assoc.
      apply IH. by apply index_of_step.
    + rewrite (build_indices_step_skip _ _ _ _ Hok).
      rewrite (accepted_cons_skip _ _ _ _ Hok). by apply IH.
Qed.

Lemma build_indices_accepted (d : list (string * json)) (v : string) :
  ∃ ix, build_indices d v = Ok ix ∧ index_of (accepted d v) ix.
Proof. apply (build_indices_from d v [] _ index_of_empty). Qed.

(** ** The search *)

Lemma elem_of_add_candidates (t2w : gmap string (list nat)) (cs : gset nat)
    (t : string) (i : nat) :
  i ∈ add_candidates t2w cs t ↔ i ∈ cs ∨ i ∈ default [] (t2w !! t).
Proof.
  unfold add_candidates. destruct (t2w !! t) as [[|j ids]|]; simpl.
  - rewrite elem_of_nil. tauto.
  - rewrite elem_of_union, elem_of_union, elem_of_singleton, elem_of_list_to_set,
      elem_of_cons. tauto.
  - rewrite elem_of_nil. tauto.
Qed.

Lemma elem_of_candidates (t2w : gmap string (list nat)) (ks : list string)
    (cs : gset nat) (i : nat) :
  i ∈ foldl (add_candidates t2w) cs ks
  ↔ i ∈ cs ∨ ∃ t, t ∈ ks ∧ i ∈ default [] (t2w !! t).
Proof.
  revert cs. induction ks as [|k ks IH]; intros cs; simpl.
  - split; [tauto|]. intros [?|(t & Ht & _)]; [done|]. by apply elem_of_nil in Ht.
  - rewrite IH, elem_of_add_candidates. split.
    + intros [[?|?]|(t & Ht & Hi)]; [by left| |].
      * right. exists k. split; [apply list_elem_of_here|done].
      * right. exists t. split; [by apply list_elem_of_further|done].
    + intros [?|(t & Ht & Hi)]; [by left; left|].
      apply elem_of_cons in Ht as [->|Ht]; [by left; right|].
      right. by exists t.
Qed.

Lemma test_candidate_pick (wl : list string) (wtc : list (gmap string nat))
    (tc : gmap string nat) (sols : list string) (i : nat) :
  i < length wtc → i < length wl →
  test_candidate wl wtc tc sols i
  = Ok (sols ++ option_list (pick wl wtc tc i)).
Proof.
  intros [c Hc]%lookup_lt_is_Some_2 [w Hw]%lookup_lt_is_Some_2.
  unfold test_candidate, pick, index. rewrite Hc. simpl.
  destruct (multiset_subset c tc); rewrite ?Hw; simpl; [done|].
  by rewrite app_nil_r.
Qed.

Lemma test_loop (wl : list string) (wtc : list (gmap string nat))
    (tc : gmap string nat) (idxs : list nat) (sols : list string) :
  (∀ i, i ∈ idxs → i < length wtc ∧ i < length wl) →
  for_each (test_candidate wl wtc tc) sols idxs
  = Ok (sols ++ omap (pick wl wtc tc) idxs).
Proof.
  revert sols. induction idxs as [|i idxs IH]; intros sols Hin; cbn [for_each omap].
  - by rewrite app_nil_r.
  - destruct (Hin i (list_elem_of_here _ _)) as [Hc Hw].
    rewrite test_candidate_pick by done. simpl.
    rewrite IH by (intros; by apply Hin, list_elem_of_further).
    rewrite <-app_assoc. by destruct (pick wl wtc tc i).
Qed.

Section search.
Variables (acc : list (string * list string)) (ix : indices).
Hypothesis Hix : index_of acc ix.
Variable tiles : list string.

Let cand : gset nat :=
  foldl (add_candidates (token_to_word_ids ix)) ∅ (counter_keys (Counter tiles)).

Lemma elem_of_cand (i : nat) :
  i ∈ cand ↔ ∃ wt t, acc !! i = Some wt ∧ t ∈ wt.2 ∧ t ∈ tiles.
Proof.
  destruct Hix as (_ & _ & Hids). unfold cand.
  rewrite elem_of_candidates. split.
  - intros [?|(t & Ht & Hi)]; [by apply not_elem_of_empty in H|].
    apply Hids in Hi as (wt & Hwt & Hin). rewrite elem_of_counter_keys in Ht.
    by exists wt, t.
  - intros (wt & t & Hwt & Hin & Ht). right. exists t.
    split; [by apply elem_of_counter_keys|]. apply Hids. by exists wt.
Qed.

Lemma pick_indexed (i : nat) (w : string) :
  pick (word_list ix) (word_token_counters ix) (Counter tiles) i = Some w
  ↔ ∃ toks, acc !! i = Some (w, toks) ∧ multiset toks ⊆ multiset tiles.
Proof.
  destruct Hix as (Hwl & Hwtc & _). unfold pick. rewrite Hwl, Hwtc.
  rewrite !list_lookup_fmap. destruct (acc !! i) as [[w' toks]|]; simpl.
  - destruct (multiset_subset (Counter toks) (Counter tiles)) eqn:Hsub.
    + apply multiset_subset_spec in Hsub. split.
      * intros [= <-]. by exists toks.
      * by intros (toks' & [= <- <-] & _).
    + split; [done|]. intros (toks' & [= <- <-] & Hs).
      apply multiset_subset_spec in Hs. congruence.
  - split; [done|]. by intros (? & ? & _).
Qed.

Lemma search_runs :
  compute_solutions_for_round tiles (word_list ix) (word_token_counters ix)
                              (token_to_word_ids ix)
  = Ok (merge_sort String.le
          (omap (pick (word_list ix) (word_token_counters ix) (Counter tiles))
                (elements cand))).
Proof.
  unfold compute_solutions_for_round. fold cand.
  rewrite test_loop; [done|].
  intros i Hi. apply elem_of_elements, elem_of_cand in Hi as (wt & _ & Hwt & _).
  apply lookup_lt_Some in Hwt. destruct Hix as (-> & -> & _).
  by rewrite !length_fmap.
Qed.

Lemma elem_of_picked (w : string) :
  Forall (λ wt, wt.2 ≠ []) acc →
  w ∈ omap (pick (word_list ix) (word_token_counters ix) (Counter tiles))
           (elements cand)
  ↔ ∃ toks, (w, toks) ∈ acc ∧ multiset toks ⊆ multiset tiles.
Proof.
  intros Hne. rewrite list_elem_of_omap. split.
  - intros (i & _ & Hp). apply pick_indexed in Hp as (toks & Hi & Hsub).
    exists toks. split; [|done]. by eapply list_elem_of_lookup_2.
  - intros (toks & Hin & Hsub).
    apply list_elem_of_lookup_1 in Hin as [i Hi]. exists i.
    split; [|apply pick_indexed; by exists toks].
    apply elem_of_elements, elem_of_cand.
    rewrite Forall_forall in Hne.
    pose proof (Hne _ (list_elem_of_lookup_2 _ _ _ Hi)) as Hnil. simpl in Hnil.
    destruct toks as [|t toks]; [done|].
    exists (w, t :: toks), t. split; [done|]. split; [apply list_elem_of_here|].
    apply multiset_elem_of. specialize (Hsub t).
    assert (0 < multiplicity t (multiset (t :: toks))); [|lia].
    apply multiset_elem_of, list_elem_of_here.
Qed.

Lemma picked_NoDup :
  NoDup acc.*1 →
  NoDup (omap (pick (word_list ix) (word_token_counters ix) (Counter tiles))
              (elements cand)).
Proof.
  intros Hnd. generalize (NoDup_elements cand).
  induction 1 as [|i idxs Hi Hidxs IH]; simpl; [constructor|].
  destruct (pick (word_list ix) (word_token_counters ix) (Counter tiles) i)
    as [w|] eqn:Hp. 2:{ done. }
  constructor; [|done]. intros (j & Hj & Hq)%list_elem_of_omap.
  apply pick_indexed in Hp as (toks & Hiw & _).
  apply pick_indexed in Hq as (toks' & Hjw & _).
  assert (i = j) as ->; [|done].
  eapply NoDup_lookup; [exact Hnd| |]; rewrite list_lookup_fmap.
  - by rewrite Hiw.
  - by rewrite Hjw.
Qed.
End search.

Lemma accepted_nonempty (d : list (string * json)) (v : string) :
  Forall (λ wt, wt.2 ≠ []) (accepted d v).
Proof.
  apply Forall_forall. intros [w toks] Hin. unfold accepted in Hin.
  apply list_elem_of_omap in Hin as ([w' e] & _ & Hsome). simpl in *.
  destruct (is_entry_ok e v) eqn:Hok; [|done].
  destruct (is_entry_ok_tokens _ _ Hok) as (toks' & Ht & Hne).
  rewrite Ht in Hsome. by injection Hsome as <- <-.
Qed.

Lemma elem_of_accepted (d : list (string * json)) (v w : string)
    (toks : list string) :
  (w, toks) ∈ accepted d v
  ↔ ∃ e, (w, e) ∈ d ∧ is_entry_ok e v = true ∧ entry_tokens e v = Ok toks.
Proof.
  unfold accepted. rewrite list_elem_of_omap. split.
  - intros ([w' e] & Hin & Hsome). simpl in *.
    destruct (is_entry_ok e v) eqn:Hok; [|done].
    destruct (entry_tokens e v) as [toks'|] eqn:Ht; [|done].
    injection Hsome as <- <-. by exists e.
  - intros (e & Hin & Hok & Ht). exists (w, e). simpl. by rewrite Hok, Ht.
Qed.

Lemma accepted_keys_sublist (d : list (string * json)) (v : string) :
  (accepted d v).*1 `sublist_of` dict_keys d.
Proof.
  unfold dict_keys. induction d as [|[w e] d IH]; [done|].
  destruct (is_entry_ok e v) eqn:Hok.
  - destruct (is_entry_ok_tokens _ _ Hok) as (toks & Ht & _).
    rewrite (accepted_cons_ok _ _ _ _ _ Hok Ht). csimpl. by apply sublist_skip.
  - rewrite (accepted_cons_skip _ _ _ _ Hok). csimpl. by apply sublist_cons.
Qed.

Lemma accepted_NoDup (d : list (string * json)) (v : string) :
  dict_wf d → NoDup (accepted d v).*1.
Proof. intros Hwf. eapply sublist_NoDup; [done|apply accepted_keys_sublist]. Qed.

Lemma elem_of_brute_force (d : list (string * json)) (v : string)
    (tiles : list string) (w : string) :
  w ∈ brute_force d v tiles
  ↔ ∃ toks, (w, toks) ∈ accepted d v ∧ multiset toks ⊆ multiset tiles.
Proof.
  unfold brute_force. rewrite list_elem_of_fmap. split.
  - intros ([w' toks] & -> & Hin). apply list_elem_of_filter in Hin as [Hsub Hin].
    by exists toks.
  - intros (toks & Hin & Hsub). exists (w, toks). split; [done|].
    by apply list_elem_of_filter.
Qed.

Lemma solutions_of_eq (d : list (string * json)) (v : string)
    (tiles : list string) :
  ∃ ix, build_indices d v = Ok ix ∧ index_of (accepted d v) ix ∧
    solutions_of d v tiles
    = Ok (merge_sort String.le
            (omap (pick (word_list ix) (word_token_counters ix) (Counter tiles))
               (elements (foldl (add_candidates (token_to_word_ids ix)) ∅
                                (counter_keys (Counter tiles)))))).
Proof.
  destruct (build_indices_accepted d v) as (ix & Hb & Hix).
  exists ix. split; [done|]. split; [done|].
  unfold solutions_of. rewrite Hb. simpl. by apply (search_runs _ _ Hix).
Qed.

(** ** Python dicts *)

Lemma dict_get_elem_of {V : Type} (d : list (string * V)) (k : string) (v : V) :
  dict_get d k = Some v → (k, v) ∈ d.
Proof.
  induction d as [|[k' v'] d IH]; simpl; [done|].
  case_decide as Hk.
  - intros [= ->]. subst. apply list_elem_of_here.
  - intros Hg. by apply list_elem_of_further, IH.
Qed.

Lemma dict_get_wf {V : Type} (d : list (string * V)) (k : string) (v : V) :
  dict_wf d → (k, v) ∈ d → dict_get d k = Some v.
Proof.
  unfold dict_wf, dict_keys. induction d as [|[k' v'] d IH]; csimpl.
  - by intros _ ?%elem_of_nil.
  - intros [Hk Hd]%NoDup_cons [[= -> ->]|Hin]%elem_of_cons.
    + by rewrite decide_True.
    + rewrite decide_False; [by apply IH|].
      intros ->. apply Hk. apply list_elem_of_fmap. by exists (k, v).
Qed.

Lemma dict_wf_unique {V : Type} (d : list (string * V)) (k : string) (v1 v2 : V) :
  dict_wf d → (k, v1) ∈ d → (k, v2) ∈ d → v1 = v2.
Proof.
  intros Hwf H1 H2. apply (dict_get_wf _ _ _ Hwf) in H1, H2. congruence.
Qed.

Lemma dict_get_set_eq {V : Type} (d : list (string * V)) (k : string) (v : V) :
  dict_get (dict_set d k v) k = Some v.
Proof.
  induction d as [|[k' v'] d IH]; simpl.
  - by rewrite decide_True.
  - case_decide as Hk; simpl.
    + by rewrite decide_True.
    + by rewrite decide_False.
Qed.

Lemma dict_get_set_ne {V : Type} (d : list (string * V)) (k k' : string) (v : V) :
  k ≠ k' → dict_get (dict_set d k v) k' = dict_get d k'.
Proof.
  intros Hne. induction d as [|[k0 v0] d IH]; simpl.
  - by rewrite decide_False.
  - case_decide as Hk; simpl.
    + subst k0. by rewrite !decide_False.
    + case_decide; [done|apply IH].
Qed.

Lemma dict_keys_set {V : Type} (d : list (string * V)) (k : string) (v : V) :
  dict_keys (dict_set d k v)
  = if decide (k ∈ dict_keys d) then dict_keys d else dict_keys d ++ [k].
Proof.
  unfold dict_keys. induction d as [|[k0 v0] d IH]; csimpl; [done|].
  destruct (decide (k0 = k)) as [->|Hne]; csimpl.
  - destruct (decide (k ∈ k :: d.*1)) as [_|Hn]; [done|].
    destruct Hn. apply list_elem_of_here.
  - rewrite IH. destruct (decide (k ∈ d.*1)) as [Hin|Hnin].
    + destruct (decide (k ∈ k0 :: d.*1)) as [_|Hn]; [done|].
      destruct Hn. by apply list_elem_of_further.
    + destruct (decide (k ∈ k0 :: d.*1)) as [[?|?]%elem_of_cons|_]; done.
Qed.

(** ** Claims about the search *)

Lemma solutions_of_spec (d : list (string * json)) (v : string)
    (tiles : list string) :
  ∃ sols, solutions_of d v tiles = Ok sols
          ∧ ∀ w, w ∈ sols ↔ w ∈ brute_force d v tiles.
Proof.
  destruct (solutions_of_eq d v tiles) as (ix & _ & Hix & ->).
  eexists. split; [done|]. intros w.
  rewrite merge_sort_Permutation, elem_of_brute_force.
  apply (elem_of_picked _ _ Hix), accepted_nonempty.
Qed.

(** C1: for every dictionary, variant and tile list the search (candidate
    pruning through the reverse index, then the multiset test) runs and
    returns exactly the words of the brute-force set
    [{w : multiset(w.tokens) ⊆ multiset(tiles)}] over the accepted entries;
    in particular pruning loses no solution. *)
Theorem solutions_equal_brute_force (dictionary : list (string * json))
    (variant : string) (tiles : list string) :
  ∃ ix sols,
    build_indices dictionary variant = Ok ix ∧
    compute_solutions_for_round tiles (word_list ix) (word_token_counters ix)
                                (token_to_word_ids ix) = Ok sols ∧
    ∀ w, w ∈ sols ↔ w ∈ brute_force dictionary variant tiles.
Proof.
  destruct (solutions_of_spec dictionary variant tiles) as (sols & Hs & Hiff).
  destruct (build_indices_accepted dictionary variant) as (ix & Hb & _).
  exists ix, sols. split; [done|]. split; [|done].
  unfold solutions_of in Hs. by rewrite Hb in Hs.
Qed.

(** C10: on an empty tile list the search returns the empty list, for the
    index of any dictionary and variant (and for any index at all: with no
    tile there is no candidate). *)
Theorem empty_tiles_no_solutions (dictionary : list (string * json))
    (variant : string) :
  (∃ ix, build_indices dictionary variant = Ok ix ∧
         compute_solutions_for_round [] (word_list ix) (word_token_counters ix)
                                     (token_to_word_ids ix) = Ok [])
  ∧ ∀ wl wtc t2w, compute_solutions_for_round [] wl wtc t2w = Ok [].
Proof.
  assert (∀ wl wtc t2w, compute_solutions_for_round [] wl wtc t2w = Ok []) as H.
  { intros wl wtc t2w. unfold compute_solutions_for_round, Counter, counter_keys.
    simpl. rewrite map_to_list_empty. simpl. by rewrite elements_empty. }
  split; [|done].
  destruct (build_indices_accepted dictionary variant) as (ix & Hb & _).
  by exists ix.
Qed.

(** C2: a word that needs a token [n >= 2] times is not a solution of tiles
    that hold the token fewer than [n] times. *)
Theorem multiplicity_sensitive (dictionary : list (string * json))
    (variant w : string) (e : json) (toks tiles : list string) (t : string)
    (n : nat) :
  dict_wf dictionary →
  (w, e) ∈ dictionary →
  entry_tokens e variant = Ok toks →
  multiplicity t (multiset toks) = n → 2 ≤ n →
  multiplicity t (multiset tiles) < n →
  ∃ sols, solutions_of dictionary variant tiles = Ok sols ∧ w ∉ sols.
Proof.
  intros Hwf Hin Ht Hn Hn2 Hlt.
  destruct (solutions_of_spec dictionary variant tiles) as (sols & Hs & Hiff).
  exists sols. split; [done|]. rewrite Hiff, elem_of_brute_force.
  intros (toks' & (e' & Hin' & _ & Ht')%elem_of_accepted & Hsub).
  rewrite (dict_wf_unique _ _ _ _ Hwf Hin' Hin) in Ht'.
  assert (toks' = toks) as -> by congruence.
  specialize (Hsub t). lia.
Qed.

Lemma multiplicity_sensitive_witness :
  ∃ sols, solutions_of [("aa", entry "sp" ["a"; "a"])] "sp" ["a"] = Ok sols
          ∧ "aa" ∉ sols.
Proof.
  apply (multiplicity_sensitive [("aa", entry "sp" ["a"; "a"])] "sp" "aa"
           (entry "sp" ["a"; "a"]) ["a"; "a"] ["a"] "a" 2).
  - apply (bool_decide_unpack _). vm_compute. reflexivity.
  - apply list_elem_of_here.
  - vm_compute. reflexivity.
  - vm_compute. reflexivity.
  - lia.
  - vm_compute. lia.
Defined.

(** ** Claims about the index *)

Lemma is_entry_ok_json (e : json) (v : string) :
  is_entry_ok e v = true
  ↔ ∃ xs, (x ← subscript e v; subscript x "tokens") = Ok (JList xs)
          ∧ xs ≠ [] ∧ Forall (λ x, is_str x = true) xs
          ∧ ∃ d, subscript e v = Ok (JDict d).
Proof.
  unfold is_entry_ok, subscript. split.
  - destruct e as [| | | | |d]; try done.
    destruct (dict_get d v) as [[| | | | |dv]|]; try done; simpl.
    destruct (dict_get dv "tokens") as [[| | | |xs|]|]; try done.
    intros [Hlen Hall]%andb_true_iff. exists xs. split; [done|].
    split; [by intros ->|]. split; [|by exists dv].
    apply Forall_forall. intros x Hx. rewrite forallb_forall in Hall.
    by apply Hall, list_elem_of_In.
  - intros (xs & Hsub & Hne & Hall & d' & Hd).
    destruct e as [| | | | |d]; try done.
    destruct (dict_get d v) as [[| | | | |dv]|]; try done; simpl in *.
    destruct (dict_get dv "tokens") as [[| | | |ys|]|]; try done.
    injection Hsub as ->. apply andb_true_iff. split.
    + destruct xs; [done|]. done.
    + apply forallb_forall. intros x Hx%list_elem_of_In.
      rewrite Forall_forall in Hall. by apply Hall.
Qed.

(** C5: the index of any dictionary and variant is built without error;
    [i] is listed under token [t] exactly when the counter of word [i]
    counts [t] at least once; and every word of [word_list] is a dictionary
    key whose entry passes [is_entry_ok], that is, holds under the variant a
    non-empty list of strings under ["tokens"], of which the word's counter
    is the [Counter]. *)
Theorem index_correct (dictionary : list (string * json)) (variant : string) :
  ∃ ix, build_indices dictionary variant = Ok ix ∧
    (∀ t i, i ∈ default [] (token_to_word_ids ix !! t)
            ↔ ∃ c, word_token_counters ix !! i = Some c
                   ∧ 0 < default 0 (c !! t)) ∧
    length (word_token_counters ix) = length (word_list ix) ∧
    (∀ i w, word_list ix !! i = Some w →
       ∃ e xs toks,
         (w, e) ∈ dictionary ∧ is_entry_ok e variant = true ∧
         (x ← subscript e variant; subscript x "tokens") = Ok (JList xs) ∧
         xs ≠ [] ∧ Forall (λ x, is_str x = true) xs ∧
         xs = JStr <$> toks ∧
         word_token_counters ix !! i = Some (Counter toks)) ∧
    (∀ w e, (w, e) ∈ dictionary → is_entry_ok e variant = true →
            w ∈ word_list ix).
Proof.
  destruct (build_indices_accepted dictionary variant)
    as (ix & Hb & Hwl & Hwtc & Hids).
  exists ix. split; [done|]. split; [|split; [|split]].
  - intros t i. rewrite Hids, Hwtc. split.
    + intros ([w toks] & Hi & Ht). exists (Counter toks).
      rewrite !list_lookup_fmap, Hi. split; [done|].
      rewrite Counter_count. by apply multiset_elem_of.
    + intros (c & Hc & Hpos). rewrite !list_lookup_fmap in Hc.
      destruct (accepted dictionary variant !! i) as [[w toks]|] eqn:Hi; [|done].
      injection Hc as <-. exists (w, toks). split; [done|].
      rewrite Counter_count in Hpos. by apply multiset_elem_of.
  - by rewrite Hwl, Hwtc, !length_fmap.
  - intros i w Hi. rewrite Hwl, list_lookup_fmap in Hi.
    destruct (accepted dictionary variant !! i) as [[w' toks]|] eqn:Hacc; [|done].
    injection Hi as ->.
    pose proof (list_elem_of_lookup_2 _ _ _ Hacc) as Hin.
    apply elem_of_accepted in Hin as (e & Hin & Hok & Ht).
    pose proof Hok as (xs & Hsub & Hne & Hall & _)%is_entry_ok_json.
    exists e, xs, toks. repeat (split; [done|]). split.
    + unfold entry_tokens in Ht.
      destruct (subscript e variant) as [x|]; [|done]. simpl in *.
      rewrite Hsub in Ht. simpl in Ht. clear -Ht.
      revert toks Ht. induction xs as [|[] xs IH]; intros toks; simpl; try done.
      * by intros [= <-].
      * destruct (as_strs xs) as [ss|]; [|done]. simpl. intros [= <-].
        csimpl. f_equal. by apply IH.
    + by rewrite Hwtc, !list_lookup_fmap, Hacc.
  - intros w e Hin Hok. destruct (is_entry_ok_tokens _ _ Hok) as (toks & Ht & _).
    rewrite Hwl. apply list_elem_of_fmap. exists (w, toks). split; [done|].
    apply elem_of_accepted. by exists e.
Qed.

(** ** Claims about enrichment *)

Lemma filter_keys_set {V : Type} (P : string → Prop) `{!∀ k, Decision (P k)}
    (d : list (string * V)) (k : string) (v : V) :
  ¬ P k → filter P (dict_keys (dict_set d k v)) = filter P (dict_keys d).
Proof.
  intros Hk. rewrite dict_keys_set. case_decide; [done|].
  rewrite filter_app, filter_cons_False by done. apply app_nil_r.
Qed.

Lemma enrich_inv (a : args) (ix : indices) (r r' : list (string * json)) :
  enrich a ix r = Ok r' →
  ∃ tiles sols,
    get_tiles r = Ok tiles ∧
    compute_solutions_for_round tiles (word_list ix) (word_token_counters ix)
                                (token_to_word_ids ix) = Ok sols ∧
    r' = dict_set (dict_set r "all_solutions" (JList (JStr <$> sols)))
                  "n_solutions" (JInt (Z.of_nat (length sols))).
Proof.
  unfold enrich. destruct (check_variant a r); simpl; [|discriminate].
  destruct (get_tiles r) as [tiles|] eqn:Ht; simpl; [|discriminate].
  destruct (compute_solutions_for_round _ _ _ _) as [sols|] eqn:Hs; simpl;
    [|discriminate].
  intros [= <-]. by exists tiles, sols.
Qed.

Lemma main_loop_inv (a : args) (ix : indices)
    (rounds : list (list (string * json))) (out0 out : list (list (string * json)))
    (res : result unit) :
  main_loop a ix rounds out0 = (out, res) →
  ∃ outs, out = out0 ++ outs ∧
    Forall2 (λ r r', enrich a ix r = Ok r') (take (length outs) rounds) outs.
Proof.
  revert out0. induction rounds as [|r rounds IH]; intros out0; simpl.
  - intros [= <- <-]. exists []. by rewrite app_nil_r.
  - destruct (enrich a ix r) as [r'|e] eqn:He.
    + intros (outs & -> & Hall)%IH. exists (r' :: outs).
      rewrite <-app_assoc. split; [done|]. simpl. by constructor.
    + intros [= <- <-]. exists []. by rewrite app_nil_r.
Qed.

Lemma main_inv (a : args) (d : list (string * json))
    (rounds out : list (list (string * json))) (res : result unit) :
  main a d rounds = (Some out, res) →
  ∃ ix, build_indices d (variant a) = Ok ix ∧ index_of (accepted d (variant a)) ix
        ∧ Forall2 (λ r r', enrich a ix r = Ok r') (take (length out) rounds) out.
Proof.
  unfold main. destruct (build_indices_accepted d (variant a)) as (ix & -> & Hix).
  destruct (main_loop a ix rounds []) as [out' res'] eqn:Hl.
  intros [= <- <-]. apply main_loop_inv in Hl as (outs & -> & Hall).
  by exists ix.
Qed.

(** C4: in every record written by the search engine, [all_solutions] is a
    list of strings sorted in the order of strings and without repetition,
    and [n_solutions] is its length. *)
Theorem enriched_sorted_unique (a : args) (dictionary : list (string * json))
    (rounds out : list (list (string * json))) (res : result unit) :
  dict_wf dictionary →
  main a dictionary rounds = (Some out, res) →
  Forall (λ r', ∃ sols,
            dict_get r' "all_solutions" = Some (JList (JStr <$> sols)) ∧
            StronglySorted String.le sols ∧ NoDup sols ∧
            dict_get r' "n_solutions" = Some (JInt (Z.of_nat (length sols))))
         out.
Proof.
  intros Hwf (ix & _ & Hix & Hall)%main_inv.
  apply Forall_forall. intros r' Hin.
  apply list_elem_of_lookup_1 in Hin as [i Hi].
  destruct (Forall2_lookup_r _ _ _ _ _ Hall Hi) as (r & _ & He).
  apply enrich_inv in He as (tiles & sols & _ & Hs & ->).
  rewrite (search_runs _ _ Hix) in Hs. injection Hs as <-.
  eexists. split; [|split; [|split]].
  - rewrite dict_get_set_ne by done. apply dict_get_set_eq.
  - apply StronglySorted_merge_sort; apply _.
  - rewrite merge_sort_Permutation.
    apply (picked_NoDup _ _ Hix). by apply accepted_NoDup.
  - apply dict_get_set_eq.
Qed.

Lemma enriched_sorted_unique_witness :
  Forall (λ r', ∃ sols,
            dict_get r' "all_solutions" = Some (JList (JStr <$> sols)) ∧
            StronglySorted String.le sols ∧ NoDup sols ∧
            dict_get r' "n_solutions" = Some (JInt (Z.of_nat (length sols))))
         [[("variant", JStr "sp");
           ("tiles", JList [JStr "Ġcat"; JStr "nip"; JStr "Ġcat"]);
           ("all_solutions", JList [JStr "cat"; JStr "catnip"]);
           ("n_solutions", JInt 2)]].
Proof.
  apply (enriched_sorted_unique (Args "sp" true) cat_dict
           [[("variant", JStr "sp");
             ("tiles", JList [JStr "Ġcat"; JStr "nip"; JStr "Ġcat"])]]
           _ (Ok ())).
  - apply (bool_decide_unpack _). vm_compute. reflexivity.
  - vm_compute. reflexivity.
Defined.

(** C9: enrichment touches the fields [all_solutions] and [n_solutions]
    only: the i-th written record agrees with the i-th input record on every
    other key ([round_id], [variant], [tiles], [targets], [target_tokens],
    [meta] among them), and its other keys are those of the input, in the
    same order. *)
Theorem enrichment_frame (a : args) (dictionary : list (string * json))
    (rounds out : list (list (string * json))) (res : result unit) :
  main a dictionary rounds = (Some out, res) →
  Forall2 (λ r r',
             (∀ k, k ≠ "all_solutions" → k ≠ "n_solutions" →
                   dict_get r' k = dict_get r k) ∧
             filter (λ k, k ∉ ["all_solutions"; "n_solutions"]) (dict_keys r')
             = filter (λ k, k ∉ ["all_solutions"; "n_solutions"]) (dict_keys r))
          (take (length out) rounds) out.
Proof.
  intros (ix & _ & _ & Hall)%main_inv.
  eapply Forall2_impl; [exact Hall|]. simpl.
  intros r r' (tiles & sols & _ & _ & ->)%enrich_inv. split.
  - intros k H1 H2. by rewrite !dict_get_set_ne.
  - rewrite !filter_keys_set; [done| |]; intros Hk; apply Hk.
    + apply list_elem_of_here.
    + apply list_elem_of_further, list_elem_of_here.
Qed.

Lemma enrichment_frame_witness :
  Forall2 (λ r r',
             (∀ k, k ≠ "all_solutions" → k ≠ "n_solutions" →
                   dict_get r' k = dict_get r k) ∧
             filter (λ k, k ∉ ["all_solutions"; "n_solutions"]) (dict_keys r')
             = filter (λ k, k ∉ ["all_solutions"; "n_solutions"]) (dict_keys r))
          [[("round_id", JInt 0); ("variant", JStr "sp");
            ("tiles", JList [JStr "nip"])]]
          [[("round_id", JInt 0); ("variant", JStr "sp");
            ("tiles", JList [JStr "nip"]);
            ("all_solutions", JList []); ("n_solutions", JInt 0)]].
Proof.
  apply (enrichment_frame (Args "sp" true) cat_dict
           [[("round_id", JInt 0); ("variant", JStr "sp");
             ("tiles", JList [JStr "nip"])]]
           [[("round_id", JInt 0); ("variant", JStr "sp");
             ("tiles", JList [JStr "nip"]);
             ("all_solutions", JList []); ("n_solutions", JInt 0)]]
           (Ok ())).
  vm_compute. reflexivity.
Defined.

(** ** The word pool *)

Lemma build_word_pool_step_ok (v : string) (lo hi : Z) (pool : list string)
    (w : string) (e : json) (toks : list string) :
  is_entry_ok e v = true → entry_tokens e v = Ok toks →
  Rounds.build_word_pool_step v lo hi pool (w, e)
  = Ok (if decide (in_range lo hi (w, toks)) then pool ++ [w] else pool).
Proof.
  intros Hok Ht. unfold Rounds.build_word_pool_step. simpl.
  rewrite rounds_is_entry_ok, Hok, Ht. simpl. unfold in_range. simpl.
  destruct (Z.leb_spec lo (Z.of_nat (length toks)));
    destruct (Z.leb_spec (Z.of_nat (length toks)) hi); simpl;
    case_decide; try done; lia.
Qed.

Lemma build_word_pool_step_skip (v : string) (lo hi : Z) (pool : list string)
    (w : string) (e : json) :
  is_entry_ok e v = false →
  Rounds.build_word_pool_step v lo hi pool (w, e) = Ok pool.
Proof.
  intros Hok. unfold Rounds.build_word_pool_step. simpl.
  by rewrite rounds_is_entry_ok, Hok.
Qed.

Lemma build_word_pool_from (d : list (string * json)) (v : string) (lo hi : Z)
    (pool : list string) :
  for_each (Rounds.build_word_pool_step v lo hi) pool d
  = Ok (pool ++ (filter (in_range lo hi) (accepted d v)).*1).
Proof.
  revert pool. induction d as [|[w e] d IH]; intros pool; cbn [for_each].
  - by rewrite app_nil_r.
  - destruct (is_entry_ok e v) eqn:Hok.
    + destruct (is_entry_ok_tokens _ _ Hok) as (toks & Ht & _).
      rewrite (build_word_pool_step_ok _ _ _ _ _ _ _ Hok Ht).
      rewrite (accepted_cons_ok _ _ _ _ _ Hok Ht), filter_cons. simpl.
      rewrite IH. case_decide; [|done]. by rewrite <-app_assoc.
    + rewrite (build_word_pool_step_skip _ _ _ _ _ _ Hok).
      rewrite (accepted_cons_skip _ _ _ _ Hok). simpl. apply IH.
Qed.

Lemma build_word_pool_eq (d : list (string * json)) (v : string) (lo hi : Z) :
  Rounds.build_word_pool d v lo hi
  = Ok (filter (in_range lo hi) (accepted d v)).*1.
Proof. unfold Rounds.build_word_pool. by rewrite build_word_pool_from. Qed.

Lemma pool_accepted (d : list (string * json)) (v : string) (lo hi : Z)
    (w : string) :
  w ∈ (filter (in_range lo hi) (accepted d v)).*1 →
  ∃ toks, (w, toks) ∈ accepted d v.
Proof.
  intros ([w' toks] & -> & [_ Hin]%list_elem_of_filter)%list_elem_of_fmap.
  by exists toks.
Qed.

Lemma word_tokens_accepted (d : list (string * json)) (v w : string)
    (toks : list string) :
  dict_wf d → (w, toks) ∈ accepted d v → word_tokens d w v = Ok toks.
Proof.
  intros Hwf (e & Hin & _ & Ht)%elem_of_accepted.
  unfold word_tokens. by rewrite (dict_get_wf _ _ _ Hwf Hin).
Qed.

(** ** One round *)

Lemma multiset_app (xs ys : list string) :
  multiset (xs ++ ys) = multiset xs ⊎ multiset ys.
Proof. apply list_to_set_disj_app. Qed.

Lemma multiset_perm (xs ys : list string) : xs ≡ₚ ys → multiset xs = multiset ys.
Proof. intros Hp. unfold multiset. by rewrite Hp. Qed.

Section generator.
Context `{Random G}.
Variables (dictionary : list (string * json)) (variant : string).

Lemma random_choice_elem_of (seq : list string) (g g' : G) (x : string) :
  random_choice seq g = Ok (x, g') → x ∈ seq.
Proof.
  unfold random_choice. destruct seq as [|y seq]; [discriminate|].
  destruct (rand_below _ g) as [i g1]. unfold index.
  destruct ((y :: seq) !! i) as [z|] eqn:Hz; simpl; [|discriminate].
  intros [= <- <-]. by eapply list_elem_of_lookup_2.
Qed.

Lemma random_sample_submseteq (pop : list string) (k : Z) (g g' : G)
    (xs : list string) :
  random_sample pop k g = Ok (xs, g') → xs ⊆+ pop ∧ length xs = Z.to_nat k.
Proof.
  unfold random_sample.
  destruct (Z.ltb_spec k 0); simpl; [discriminate|].
  destruct (Z.ltb_spec (Z.of_nat (length pop)) k); [discriminate|].
  intros [= Hs]. destruct (rand_sample_spec pop (Z.to_nat k) g) as [Hsub Hlen];
    [lia|]. rewrite Hs in Hsub, Hlen. done.
Qed.

Lemma pick_targets_pool (pool targets : list string) (k m : Z) (g g' : G) :
  Rounds.pick_targets pool dictionary variant k m g = Ok (targets, g') →
  targets ⊆+ pool ∧ length targets = Z.to_nat k.
Proof.
  unfold Rounds.pick_targets.
  destruct (_ <? k)%Z; [discriminate|]. destruct (0 <? m)%Z; [|discriminate].
  apply random_sample_submseteq.
Qed.

End generator.

(** ** The batch driver *)

Lemma forallb_is_str_fmap (l : list string) : forallb is_str (JStr <$> l) = true.
Proof. induction l as [|s l IH]; csimpl; done. Qed.

Lemma get_tiles_round_obj (a : Rounds.args) (n : Z) (tiles : list string)
    (tm : list (string * list string)) :
  get_tiles (Rounds.round_obj a n tiles tm) = Ok tiles.
Proof.
  unfold get_tiles, Rounds.round_obj. cbn [dict_get].
  rewrite !decide_False by done. rewrite decide_True by done.
  rewrite forallb_is_str_fmap. apply as_strs_fmap.
Qed.

Lemma get_targets_round_obj (a : Rounds.args) (n : Z) (tiles : list string)
    (tm : list (string * list string)) :
  dict_get (Rounds.round_obj a n tiles tm) "targets"
  = Some (JList (JStr <$> dict_keys tm)).
Proof.
  unfold Rounds.round_obj. cbn [dict_get].
  rewrite !decide_False by done. by rewrite decide_True.
Qed.

Lemma Counter_perm (xs ys : list string) : xs ≡ₚ ys → Counter xs = Counter ys.
Proof.
  intros Hp. apply map_eq. intros t.
  pose proof (Counter_count xs t) as Hx. pose proof (Counter_count ys t) as Hy.
  rewrite (multiset_perm _ _ Hp) in Hx.
  destruct (Counter xs !! t) as [n|] eqn:Hn, (Counter ys !! t) as [m|] eqn:Hm;
    simpl in *; try done.
  - congruence.
  - apply Counter_pos in Hn. lia.
  - apply Counter_pos in Hm. lia.
Qed.

Lemma signature_perm (xs ys : list string) :
  xs ≡ₚ ys → Rounds.signature xs = Rounds.signature ys.
Proof. intros Hp. unfold Rounds.signature. by rewrite (Counter_perm _ _ Hp). Qed.

Section driver.
Context `{Random G}.
Variables (a : Rounds.args) (dictionary : list (string * json))
          (pool : list string).

Lemma main_body_inv (st st' : Rounds.loop_state G) :
  Rounds.main_body a dictionary pool st = Ok st' →
  ∃ targets g1 tiles tm,
    Rounds.pick_targets pool dictionary (Rounds.variant a) (Rounds.k_targets a)
                        2000%Z (Rounds.rng st) = Ok (targets, g1) ∧
    Rounds.round_tiles_from_targets targets dictionary (Rounds.variant a)
      (Rounds.distractors a) pool true g1 = Ok (tiles, tm, Rounds.rng st') ∧
    Rounds.attempts st' = (Rounds.attempts st + 1)%Z ∧
    ((Rounds.written st' = Rounds.written st ∧
      Rounds.out_f st' = Rounds.out_f st ∧
      Rounds.seen_signatures st' = Rounds.seen_signatures st)
     ∨
     ((Z.of_nat (length tiles) ≤ Rounds.max_tiles a)%Z ∧
      Rounds.written st' = (Rounds.written st + 1)%Z ∧
      Rounds.out_f st'
      = Rounds.out_f st ++ [Rounds.round_obj a (Rounds.written st) tiles tm] ∧
      (Rounds.ensure_unique_rounds a = true →
       (Rounds.signature tiles ∉ Rounds.seen_signatures st) ∧
       Rounds.seen_signatures st'
       = Rounds.seen_signatures st ∪ {[ Rounds.signature tiles ]}))).
Proof.
  unfold Rounds.main_body.
  destruct (Rounds.pick_targets _ _ _ _ _ _) as [[targets g1]|] eqn:Hp; simpl;
    [|discriminate].
  destruct (Rounds.round_tiles_from_targets _ _ _ _ _ _ _)
    as [[[tiles tm] g2]|] eqn:Hr; simpl; [|discriminate].
  destruct (Z.ltb_spec (Rounds.max_tiles a) (Z.of_nat (length tiles))).
  { intros [= <-]. exists targets, g1, tiles, tm. simpl. by eauto 10. }
  destruct (Rounds.ensure_unique_rounds a) eqn:Hu; simpl.
  - case_bool_decide as Hseen.
    + intros [= <-]. exists targets, g1, tiles, tm. simpl. by eauto 10.
    + intros [= <-]. exists targets, g1, tiles, tm. simpl.
      split; [done|]. split; [done|]. split; [done|]. right. by eauto 10.
  - intros [= <-]. exists targets, g1, tiles, tm. simpl.
    split; [done|]. split; [done|]. split; [done|]. right.
    split; [done|]. split; [done|]. split; [done|]. discriminate.
Qed.

Lemma main_body_over_cap (st : Rounds.loop_state G) (targets tiles : list string)
    (tm : list (string * list string)) (g1 g2 : G) :
  Rounds.pick_targets pool dictionary (Rounds.variant a) (Rounds.k_targets a)
                      2000%Z (Rounds.rng st) = Ok (targets, g1) →
  Rounds.round_tiles_from_targets targets dictionary (Rounds.variant a)
    (Rounds.distractors a) pool true g1 = Ok (tiles, tm, g2) →
  (Rounds.max_tiles a < Z.of_nat (length tiles))%Z →
  Rounds.main_body a dictionary pool st = Ok (retry_state st g2).
Proof.
  intros Hp Hr Hlen. unfold Rounds.main_body. rewrite Hp. simpl. rewrite Hr.
  simpl. apply Z.ltb_lt in Hlen. by rewrite Hlen.
Qed.

Lemma main_body_seen (st : Rounds.loop_state G) (targets tiles : list string)
    (tm : list (string * list string)) (g1 g2 : G) :
  Rounds.ensure_unique_rounds a = true →
  Rounds.pick_targets pool dictionary (Rounds.variant a) (Rounds.k_targets a)
                      2000%Z (Rounds.rng st) = Ok (targets, g1) →
  Rounds.round_tiles_from_targets targets dictionary (Rounds.variant a)
    (Rounds.distractors a) pool true g1 = Ok (tiles, tm, g2) →
  Rounds.signature tiles ∈ Rounds.seen_signatures st →
  Rounds.main_body a dictionary pool st = Ok (retry_state st g2).
Proof.
  intros Hu Hp Hr Hseen. unfold Rounds.main_body. rewrite Hp. simpl. rewrite Hr.
  simpl. destruct (_ <? _)%Z; [done|].
  by rewrite Hu, bool_decide_eq_true_2.
Qed.

Lemma main_body_fresh (st : Rounds.loop_state G) (targets tiles : list string)
    (tm : list (string * list string)) (g1 g2 : G) :
  Rounds.ensure_unique_rounds a = true →
  Rounds.pick_targets pool dictionary (Rounds.variant a) (Rounds.k_targets a)
                      2000%Z (Rounds.rng st) = Ok (targets, g1) →
  Rounds.round_tiles_from_targets targets dictionary (Rounds.variant a)
    (Rounds.distractors a) pool true g1 = Ok (tiles, tm, g2) →
  (Z.of_nat (length tiles) ≤ Rounds.max_tiles a)%Z →
  Rounds.signature tiles ∉ Rounds.seen_signatures st →
  Rounds.main_body a dictionary pool st
  = Ok (Rounds.LoopState (Rounds.written st + 1)%Z (Rounds.attempts st + 1)%Z
          (Rounds.seen_signatures st ∪ {[ Rounds.signature tiles ]})
          (Rounds.out_f st ++ [Rounds.round_obj a (Rounds.written st) tiles tm])
          g2).
Proof.
  intros Hu Hp Hr Hlen Hfresh. unfold Rounds.main_body. rewrite Hp. simpl.
  rewrite Hr. simpl. apply Z.ltb_ge in Hlen. rewrite Hlen.
  by rewrite Hu, bool_decide_eq_false_2.
Qed.

Lemma main_loop_invariant (P : Rounds.loop_state G → Prop) (fuel : nat) (m : Z)
    (st st' : Rounds.loop_state G) (res : result unit) :
  (∀ s s', P s → loop_cond a m s = true →
           Rounds.main_body a dictionary pool s = Ok s' → P s') →
  P st →
  Rounds.main_loop fuel a dictionary pool m st = Some (st', res) →
  P st' ∧ (res = Ok () → loop_cond a m st' = false).
Proof.
  intros Hstep. revert st. induction fuel as [|fuel IH]; intros st HP; simpl.
  - destruct (loop_cond a m st) eqn:Hc; unfold loop_cond in Hc; rewrite Hc;
      [discriminate|]. by intros [= <- <-].
  - destruct (loop_cond a m st) eqn:Hc; pose proof Hc as Hc';
      unfold loop_cond in Hc; rewrite Hc; [|by intros [= <- <-]].
    destruct (Rounds.main_body a dictionary pool st) as [s'|e] eqn:Hb.
    + apply IH. by eapply Hstep.
    + intros [= <- <-]. split; [done|discriminate].
Qed.

Lemma main_loop_terminates (fuel : nat) (m : Z) (st : Rounds.loop_state G) :
  Z.to_nat (m - Rounds.attempts st) ≤ fuel →
  ∃ st' res, Rounds.main_loop fuel a dictionary pool m st = Some (st', res).
Proof.
  revert st. induction fuel as [|fuel IH]; intros st Hfuel; simpl.
  - destruct (Z.ltb_spec (Rounds.attempts st) m); [lia|].
    rewrite andb_false_r. by eauto.
  - destruct (_ && _)%Z; [|by eauto].
    destruct (Rounds.main_body a dictionary pool st) as [s'|e] eqn:Hb; [|by eauto].
    apply IH. apply main_body_inv in Hb as (? & ? & ? & ? & _ & _ & -> & _). lia.
Qed.

End driver.

Lemma main_run `{Random G} (a : Rounds.args) (dictionary : list (string * json)) :
  let p := (filter (in_range (Rounds.min_tokens a) (Rounds.max_tokens a))
                   (accepted dictionary (Rounds.variant a))).*1 in
  ∃ run, Rounds.main a dictionary = Some run ∧
    ((p = [] ∧ run = Rounds.Run None (Raise RuntimeError)) ∨
     (p ≠ [] ∧ ∃ st res,
        Rounds.main_loop (Z.to_nat (budget a)) a dictionary p (budget a)
                         (init_state a) = Some (st, res) ∧
        run = report a st res)).
Proof.
  intros p. unfold Rounds.main. rewrite build_word_pool_eq. fold p.
  destruct p as [|w p]; [by eauto|].
  fold (budget a). fold (init_state a).
  destruct (main_loop_terminates a dictionary (w :: p) (Z.to_nat (budget a))
              (budget a) (init_state a)) as (st & res & Hl); [simpl; lia|].
  rewrite Hl. simpl. exists (report a st res). split.
  - unfold report. destruct res as [[]|e]; [|done].
    by destruct (_ <? _)%Z.
  - right. split; [done|]. by exists st, res.
Qed.

(** The fuel given to the loop is enough: [Rounds.main] always ends. *)
Lemma main_terminates `{Random G} (a : Rounds.args)
    (dictionary : list (string * json)) :
  ∃ run, Rounds.main a dictionary = Some run.
Proof. destruct (main_run a dictionary) as (run & Hm & _). by exists run. Qed.

Lemma report_out_file {G : Type} (a : Rounds.args) (st : Rounds.loop_state G)
    (res : result unit) :
  Rounds.out_file (report a st res) = Some (Rounds.out_f st).
Proof. unfold report. destruct res as [[]|]; [|done]. by destruct (_ <? _)%Z. Qed.

(** A property of the written lines that every accepted round establishes
    holds of the output file of [Rounds.main]. *)
Lemma main_lines `{Random G} (a : Rounds.args) (dictionary : list (string * json))
    (P : Rounds.loop_state G → Prop) :
  P (init_state a) →
  (∀ s s',
     P s →
     Rounds.main_body a dictionary
       (filter (in_range (Rounds.min_tokens a) (Rounds.max_tokens a))
               (accepted dictionary (Rounds.variant a))).*1 s = Ok s' →
     P s') →
  ∃ run, Rounds.main a dictionary = Some run ∧
    ∀ lines, Rounds.out_file run = Some lines →
             ∃ st, P st ∧ lines = Rounds.out_f st.
Proof.
  intros Hinit Hstep.
  destruct (main_run a dictionary)
    as (run & Hm & [[_ ->]|(_ & st & res & Hl & ->)]);
    (eexists; split; [exact Hm|]); intros lines.
  - discriminate.
  - rewrite report_out_file. intros [= <-]. exists st. split; [|done].
    eapply (main_loop_invariant a dictionary _ P) in Hl as [HP _]; eauto.
Qed.

(** C6: every line written by the batch driver holds at most [max_tiles]
    tiles; a candidate with more tiles is rejected as a retry: the attempt
    is counted and nothing is written. *)
Theorem tiles_within_max `{Random G} (a : Rounds.args)
    (dictionary : list (string * json)) :
  (∃ run, Rounds.main a dictionary = Some run ∧
     ∀ lines, Rounds.out_file run = Some lines →
              Forall (within_max_tiles a) lines) ∧
  ∀ pool st targets tiles tm g1 g2,
    Rounds.pick_targets pool dictionary (Rounds.variant a) (Rounds.k_targets a)
                        2000%Z (Rounds.rng st) = Ok (targets, g1) →
    Rounds.round_tiles_from_targets targets dictionary (Rounds.variant a)
      (Rounds.distractors a) pool true g1 = Ok (tiles, tm, g2) →
    (Rounds.max_tiles a < Z.of_nat (length tiles))%Z →
    Rounds.main_body a dictionary pool st = Ok (retry_state st g2).
Proof.
  split; [|intros *; apply main_body_over_cap].
  destruct (main_lines a dictionary
              (λ s, Forall (within_max_tiles a) (Rounds.out_f s)))
    as (run & Hm & Hlines).
  - constructor.
  - intros s s' HP (targets & g1 & tiles & tm & _ & _ & _ &
                    [(_ & -> & _)|(Hlen & _ & -> & _)])%main_body_inv; [done|].
    apply Forall_app. split; [done|]. constructor; [|constructor].
    exists tiles. split; [apply get_tiles_round_obj|done].
  - exists run. split; [done|]. intros lines (st & HP & ->)%Hlines. done.
Qed.

(** The signature is the sorted sequence of the [(token, count)] pairs of
    the tile multiset. *)
Lemma item_le_total : Total Rounds.item_le.
Proof.
  intros [s n] [s' n']. unfold Rounds.item_le. simpl.
  destruct (decide (s = s')) as [->|Hne].
  - rewrite decide_True by done. lia.
  - rewrite decide_False by done. apply (total String.le).
Qed.

Lemma signature_sorted (tiles : list string) :
  Sorted Rounds.item_le (Rounds.signature tiles).
Proof. apply (Sorted_merge_sort _ (Total0 := item_le_total)). Qed.

Lemma elem_of_signature (tiles : list string) (t : string) (n : nat) :
  (t, n) ∈ Rounds.signature tiles
  ↔ n = multiplicity t (multiset tiles) ∧ 0 < n.
Proof.
  unfold Rounds.signature.
  by rewrite merge_sort_Permutation, elem_of_map_to_list, Counter_lookup.
Qed.

(** C7: with [ensure_unique_rounds], the lines written in one run have
    pairwise different signatures, hence pairwise different tile multisets;
    the signature of a tile list is the sorted sequence of the
    [(token, count)] pairs of its multiset; a candidate whose signature is
    registered is rejected as a retry, and an accepted candidate is written
    and its signature registered. *)
Theorem unique_signatures `{Random G} (a : Rounds.args)
    (dictionary : list (string * json)) :
  Rounds.ensure_unique_rounds a = true →
  (∀ tiles, Sorted Rounds.item_le (Rounds.signature tiles) ∧
            ∀ t n, (t, n) ∈ Rounds.signature tiles
                   ↔ n = multiplicity t (multiset tiles) ∧ 0 < n) ∧
  (∃ run, Rounds.main a dictionary = Some run ∧
     ∀ lines, Rounds.out_file run = Some lines → distinct_signatures lines) ∧
  ∀ pool st targets tiles tm g1 g2,
    Rounds.pick_targets pool dictionary (Rounds.variant a) (Rounds.k_targets a)
                        2000%Z (Rounds.rng st) = Ok (targets, g1) →
    Rounds.round_tiles_from_targets targets dictionary (Rounds.variant a)
      (Rounds.distractors a) pool true g1 = Ok (tiles, tm, g2) →
    (Z.of_nat (length tiles) ≤ Rounds.max_tiles a)%Z →
    (Rounds.signature tiles ∈ Rounds.seen_signatures st →
     Rounds.main_body a dictionary pool st = Ok (retry_state st g2)) ∧
    (Rounds.signature tiles ∉ Rounds.seen_signatures st →
     Rounds.main_body a dictionary pool st
     = Ok (Rounds.LoopState (Rounds.written st + 1)%Z
             (Rounds.attempts st + 1)%Z
             (Rounds.seen_signatures st ∪ {[ Rounds.signature tiles ]})
             (Rounds.out_f st
              ++ [Rounds.round_obj a (Rounds.written st) tiles tm])
             g2)).
Proof.
  intros Hu. split.
  { intros tiles. split; [apply signature_sorted|apply elem_of_signature]. }
  split.
  2:{ intros pool st targets tiles tm g1 g2 Hp Hr Hlen. split; intros Hs.
      - by eapply main_body_seen.
      - by eapply main_body_fresh. }
  destruct (main_lines a dictionary
     (λ s, ∃ tiless,
        Forall2 (λ r tiles, get_tiles r = Ok tiles) (Rounds.out_f s) tiless ∧
        NoDup (Rounds.signature <$> tiless) ∧
        ∀ t, t ∈ tiless → Rounds.signature t ∈ Rounds.seen_signatures s))
    as (run & Hm & Hlines).
  - exists []. split; [constructor|]. split; [constructor|].
    by intros t ?%elem_of_nil.
  - intros s s' (tiless & Hall & Hnd & Hseen)
      (targets & g1 & tiles & tm & _ & _ & _ &
       [(_ & -> & ->)|(_ & _ & -> & Hreg)])%main_body_inv.
    + by exists tiless.
    + destruct (Hreg Hu) as [Hfresh ->]. exists (tiless ++ [tiles]).
      split; [|split].
      * apply Forall2_app; [done|]. constructor; [|constructor].
        apply get_tiles_round_obj.
      * rewrite fmap_app. apply NoDup_app. split; [done|]. split.
        -- intros sig (t & -> & Ht)%list_elem_of_fmap
             Heq%list_elem_of_singleton.
           apply Hfresh. rewrite <-Heq. by apply Hseen.
        -- apply NoDup_singleton.
      * intros t [Ht| ->%list_elem_of_singleton]%elem_of_app.
        -- apply elem_of_union. left. by apply Hseen.
        -- apply elem_of_union. right. by apply elem_of_singleton.
  - exists run. split; [done|].
    intros lines (st & (tiless & Hall & Hnd & _) & ->)%Hlines.
    exists tiless. split; [done|]. split; [done|].
    intros i j t1 t2 Hi Hj Hij Hp. apply Hij.
    eapply NoDup_lookup; [exact Hnd| |]; rewrite list_lookup_fmap.
    + by rewrite Hi.
    + rewrite Hj. exact (f_equal Some (eq_sym (signature_perm _ _ Hp))).
Qed.

(** C8, amended: the retry budget is 20 times the requested count; when the
    loop ends with the budget used up and fewer rounds than requested, the
    run ends in [RuntimeError], and a run that succeeds has written exactly
    the requested number of rounds. The rounds written before the failure
    stay in the output file. *)
Theorem budget_exhaustion_fatal `{Random G} (a : Rounds.args)
    (dictionary : list (string * json)) :
  ∃ run, Rounds.main a dictionary = Some run ∧
    (Rounds.outcome run = Ok () →
     ∃ lines, Rounds.out_file run = Some lines ∧
              Z.of_nat (length lines) = Z.max 0 (Rounds.n_rounds a)) ∧
    (∀ pool st,
       Rounds.build_word_pool dictionary (Rounds.variant a)
         (Rounds.min_tokens a) (Rounds.max_tokens a) = Ok pool →
       pool ≠ [] →
       Rounds.main_loop (Z.to_nat (Rounds.n_rounds a * 20)) a dictionary pool
                        (Rounds.n_rounds a * 20)%Z (init_state a)
       = Some (st, Ok ()) →
       (Rounds.written st < Rounds.n_rounds a)%Z →
       Rounds.attempts st = (Rounds.n_rounds a * 20)%Z ∧
       Z.of_nat (length (Rounds.out_f st)) = Rounds.written st ∧
       run = Rounds.Run (Some (Rounds.out_f st)) (Raise RuntimeError)).
Proof.
  set (P := λ s : Rounds.loop_state G,
         Rounds.written s = Z.of_nat (length (Rounds.out_f s)) ∧
         (Rounds.written s ≤ Z.max 0 (Rounds.n_rounds a))%Z ∧
         (Rounds.attempts s ≤ Z.max 0 (budget a))%Z).
  assert (P (init_state a)) as Hinit by (unfold P; simpl; lia).
  assert (∀ pool s s', P s → loop_cond a (budget a) s = true →
            Rounds.main_body a dictionary pool s = Ok s' → P s') as Hstep.
  { intros pool s s' (Hw & Hn & Hm) [Hcw Hca]%andb_true_iff.
    apply Z.ltb_lt in Hcw, Hca.
    intros (targets & g1 & tiles & tm & _ & _ & Hatt &
            [(Hw' & Ho' & _)|(_ & Hw' & Ho' & _)])%main_body_inv; unfold P.
    - rewrite Hw', Ho', Hatt. lia.
    - rewrite Hw', Ho', Hatt, length_app. simpl. lia. }
  destruct (main_run a dictionary)
    as (run & Hm & [[Hp ->]|(Hp & st & res & Hl & ->)]);
    (exists run || eexists); (split; [exact Hm|]); split.
  - discriminate.
  - intros pool st. rewrite build_word_pool_eq. intros [= <-]. done.
  - pose proof Hl as [(Hw & Hn & _) Hexit]%(main_loop_invariant _ _ _ P);
      [|by eauto|done].
    unfold report. destruct res as [[]|e]; [|discriminate].
    specialize (Hexit eq_refl). destruct (Z.ltb_spec (Rounds.written st)
                                            (Rounds.n_rounds a)); [discriminate|].
    intros _. exists (Rounds.out_f st). split; [done|]. lia.
  - intros pool st'. rewrite build_word_pool_eq. intros [= <-] _ Hl'.
    fold (budget a) in Hl'. rewrite Hl in Hl'. injection Hl' as -> ->.
    intros Hlt.
    pose proof Hl as [(Hw & Hn & Ha) Hexit]%(main_loop_invariant _ _ _ P);
      [|by eauto|done].
    specialize (Hexit eq_refl). unfold loop_cond in Hexit.
    apply andb_false_iff in Hexit as [Hc|Hc]; apply Z.ltb_ge in Hc; [lia|].
    unfold budget in *. split; [lia|]. split; [lia|].
    unfold report. by destruct (Z.ltb_spec (Rounds.written st')
                                  (Rounds.n_rounds a)); [|lia].
Qed.

Lemma budget_exhaustion_fatal_witness :
  let st := Rounds.LoopState 1%Z 40%Z {[ [("a", 1)] ]}
              [Rounds.round_obj two_unique_args 0 ["a"] [("a", ["a"])]] 87 in
  Rounds.attempts st = 40%Z ∧
  Z.of_nat (length (Rounds.out_f st)) = Rounds.written st ∧
  Rounds.main two_unique_args one_word_dict
  = Some (Rounds.Run (Some (Rounds.out_f st)) (Raise RuntimeError)).
Proof.
  intros st.
  destruct (budget_exhaustion_fatal two_unique_args one_word_dict)
    as (run & Hm & _ & Hex).
  destruct (Hex ["a"] st) as (Ha & Hlen & ->).
  - vm_compute. reflexivity.
  - discriminate.
  - vm_compute. reflexivity.
  - vm_compute. reflexivity.
  - split; [exact Ha|]. split; [exact Hlen|exact Hm].
Defined.

(** The claim C8 as the specification states it fails on the part about the
    partial output: with one eligible word and two unique rounds requested,
    the second round can never be accepted, the budget of 40 attempts runs
    out, the run ends in [RuntimeError], and the one round written stays in
    the file. *)
Lemma budget_exhaustion_keeps_output :
  ∃ run, Rounds.main two_unique_args one_word_dict = Some run ∧
         Rounds.outcome run = Raise RuntimeError ∧
         Rounds.out_file run
         = Some [Rounds.round_obj two_unique_args 0 ["a"] [("a", ["a"])]] ∧
         ¬ output_discarded run.
Proof.
  eexists. split; [vm_compute; reflexivity|]. split; [reflexivity|].
  split; [reflexivity|]. intros [Hd|Hd]; discriminate Hd.
Qed.

Lemma unique_signatures_witness :
  ∃ run, Rounds.main pet_args pet_dict = Some run ∧
    ∀ lines, Rounds.out_file run = Some lines → distinct_signatures lines.
Proof.
  apply (unique_signatures pet_args pet_dict). reflexivity.
Defined.

(** ** The scenarios of the specification, and runs of the generator *)

Example scenario_cat :
  solutions_of cat_dict "sp" ["Ġcat"; "nip"; "Ġcat"] = Ok ["cat"; "catnip"].
Proof. vm_compute. reflexivity. Qed.

Example scenario_nip : solutions_of cat_dict "sp" ["nip"] = Ok [].
Proof. vm_compute. reflexivity. Qed.

Example scenario_pool_too_small :
  Rounds.main (Rounds.Args 1 "sp" 3 0 7 1 4 80 false) cat_dict
  = Some (Rounds.Run (Some []) (Raise ValueError)).
Proof. vm_compute. reflexivity. Qed.

Example pet_run :
  Rounds.main pet_args pet_dict
  = Some (Rounds.Run
            (Some [Rounds.round_obj pet_args 0 ["nip"; "ip"; "Ġcat"]
                                    [("catnip", ["Ġcat"; "nip"])];
                   Rounds.round_obj pet_args 1 ["Ġcat"; "Ġn"; "ip"]
                                    [("nip", ["Ġn"; "ip"])];
                   Rounds.round_obj pet_args 2 ["Ġcat"; "nip"]
                                    [("cat", ["Ġcat"])]])
            (Ok ())).
Proof. vm_compute. reflexivity. Qed.

Example pet_run_capped :
  Rounds.main (Rounds.Args 2 "sp" 2 1 7 1 4 3 false) pet_dict
  = Some (Rounds.Run (Some []) (Raise RuntimeError)).
Proof. vm_compute. reflexivity. Qed.

(** * Further properties of [precompute_full_recall.py] *)

(** X1: on the counters of two token lists, [multiset_subset] decides
    sub-multiset coverage. *)
Theorem multiset_subset_decides_coverage (needed available : list string) :
  multiset_subset (Counter needed) (Counter available) = true
  ↔ ∀ t, multiplicity t (multiset needed) ≤ multiplicity t (multiset available).
Proof. rewrite multiset_subset_spec. done. Qed.

Lemma foldl_append_id_lookup (idx : nat) (ks : list string)
    (m : gmap string (list nat)) (t : string) :
  NoDup ks →
  foldl (append_id idx) m ks !! t
  = if decide (t ∈ ks) then Some (default [] (m !! t) ++ [idx]) else m !! t.
Proof.
  intros Hnd. revert m. induction Hnd as [|k ks Hk Hnd IH]; intros m.
  - done.
  - simpl foldl. rewrite IH. unfold append_id.
    destruct (decide (t = k)) as [->|Hne].
    + rewrite lookup_insert_eq. cbn [default].
      destruct (decide (k ∈ ks)); [done|].
      destruct (decide (k ∈ k :: ks)) as [_|Hn]; [done|].
      destruct Hn. apply list_elem_of_here.
    + rewrite lookup_insert_ne by done.
      destruct (decide (t ∈ ks)) as [Hin|Hnin].
      * destruct (decide (t ∈ k :: ks)) as [_|Hn]; [done|].
        destruct Hn. by apply list_elem_of_further.
      * destruct (decide (t ∈ k :: ks)) as [[?|?]%elem_of_cons|_]; done.
Qed.

Lemma id_lists_step (ix : indices) (w : string) (toks : list string) :
  (∀ t ids, token_to_word_ids ix !! t = Some ids →
            ids ≠ [] ∧ StronglySorted lt ids
            ∧ Forall (λ i, i < length (word_list ix)) ids) →
  ∀ t ids,
    foldl (append_id (length (word_list ix))) (token_to_word_ids ix)
          (counter_keys (Counter toks)) !! t = Some ids →
    ids ≠ [] ∧ StronglySorted lt ids
    ∧ Forall (λ i, i < length (word_list ix ++ [w])) ids.
Proof.
  intros Hinv t ids. rewrite foldl_append_id_lookup by apply counter_keys_NoDup.
  rewrite length_app. simpl. case_decide as Hk.
  - intros [= <-]. split; [by intros [_ ?]%app_eq_nil|].
    destruct (token_to_word_ids ix !! t) as [old|] eqn:Hold; simpl.
    + destruct (Hinv _ _ Hold) as (_ & Hs & Hr). split.
      * apply StronglySorted_app_2; [|done|repeat constructor].
        intros i j Hi ->%list_elem_of_singleton.
        rewrite Forall_forall in Hr. by apply Hr.
      * apply Forall_app. split.
        -- eapply Forall_impl; [exact Hr|]. simpl. lia.
        -- repeat constructor. lia.
    + split; repeat constructor. lia.
  - intros Hold. destruct (Hinv _ _ Hold) as (Hne & Hs & Hr).
    split; [done|]. split; [done|].
    eapply Forall_impl; [exact Hr|]. simpl. lia.
Qed.

Lemma id_lists_from (d : list (string * json)) (v : string) (ix ix' : indices) :
  (∀ t ids, token_to_word_ids ix !! t = Some ids →
            ids ≠ [] ∧ StronglySorted lt ids
            ∧ Forall (λ i, i < length (word_list ix)) ids) →
  for_each (build_indices_step v) ix d = Ok ix' →
  ∀ t ids, token_to_word_ids ix' !! t = Some ids →
           ids ≠ [] ∧ StronglySorted lt ids
           ∧ Forall (λ i, i < length (word_list ix')) ids.
Proof.
  revert ix. induction d as [|[w e] d IH]; intros ix Hinv; cbn [for_each].
  - by intros [= <-].
  - destruct (is_entry_ok e v) eqn:Hok.
    + destruct (is_entry_ok_tokens _ _ Hok) as (toks & Ht & _).
      rewrite (build_indices_step_ok _ _ _ _ _ Hok Ht). simpl.
      apply IH. simpl. by apply id_lists_step.
    + rewrite (build_indices_step_skip _ _ _ _ Hok). simpl. by apply IH.
Qed.

(** X2: in the reverse index every list of word ids is non-empty, strictly
    increasing (a word is listed once under a token, however often the token
    occurs in it) and within the bounds of [word_list]. *)
Theorem id_lists_sorted_in_range (dictionary : list (string * json))
    (variant : string) :
  ∃ ix, build_indices dictionary variant = Ok ix ∧
    ∀ t ids, token_to_word_ids ix !! t = Some ids →
             ids ≠ [] ∧ StronglySorted lt ids
             ∧ Forall (λ i, i < length (word_list ix)) ids.
Proof.
  destruct (build_indices_accepted dictionary variant) as (ix & Hb & _).
  exists ix. split; [done|].
  eapply id_lists_from; [|exact Hb]. simpl. intros t ids.
  by rewrite lookup_empty.
Qed.

(** X3: [word_list] holds the accepted words in the order of the
    dictionary, a subsequence of its keys, and [word_token_counters] holds,
    position by position, the counter of each accepted token list. *)
Theorem index_in_dictionary_order (dictionary : list (string * json))
    (variant : string) :
  ∃ ix, build_indices dictionary variant = Ok ix ∧
    word_list ix = (accepted dictionary variant).*1 ∧
    word_token_counters ix = Counter <$> (accepted dictionary variant).*2 ∧
    word_list ix `sublist_of` dict_keys dictionary.
Proof.
  destruct (build_indices_accepted dictionary variant)
    as (ix & Hb & Hwl & Hwtc & _).
  exists ix. repeat (split; [done|]). rewrite Hwl. apply accepted_keys_sublist.
Qed.

(** X4: the order of the tiles does not matter: on rearranged tiles the
    search returns the same list, for any index. *)
Theorem search_ignores_tile_order (tiles1 tiles2 : list string)
    (wl : list string) (wtc : list (gmap string nat))
    (t2w : gmap string (list nat)) :
  tiles1 ≡ₚ tiles2 →
  compute_solutions_for_round tiles1 wl wtc t2w
  = compute_solutions_for_round tiles2 wl wtc t2w.
Proof.
  intros Hp. unfold compute_solutions_for_round. by rewrite (Counter_perm _ _ Hp).
Qed.

Lemma search_ignores_tile_order_witness :
  compute_solutions_for_round ["nip"; "Ġcat"] ["cat"] [Counter ["Ġcat"]]
                              {[ "Ġcat" := [0] ]}
  = compute_solutions_for_round ["Ġcat"; "nip"] ["cat"] [Counter ["Ġcat"]]
                                {[ "Ġcat" := [0] ]}.
Proof.
  apply (search_ignores_tile_order ["nip"; "Ġcat"] ["Ġcat"; "nip"]).
  apply perm_swap.
Defined.

(** X5: adding tiles never loses a solution. *)
Theorem more_tiles_more_solutions (dictionary : list (string * json))
    (variant : string) (tiles1 tiles2 : list string) :
  multiset tiles1 ⊆ multiset tiles2 →
  ∃ sols1 sols2,
    solutions_of dictionary variant tiles1 = Ok sols1 ∧
    solutions_of dictionary variant tiles2 = Ok sols2 ∧
    ∀ w, w ∈ sols1 → w ∈ sols2.
Proof.
  intros Hsub.
  destruct (solutions_of_spec dictionary variant tiles1) as (s1 & H1 & Hiff1).
  destruct (solutions_of_spec dictionary variant tiles2) as (s2 & H2 & Hiff2).
  exists s1, s2. split; [done|]. split; [done|]. intros w.
  rewrite Hiff1, Hiff2, !elem_of_brute_force.
  intros (toks & Hin & Ht). exists toks. split; [done|].
  by transitivity (multiset tiles1).
Qed.

Lemma more_tiles_more_solutions_witness :
  ∃ sols1 sols2,
    solutions_of cat_dict "sp" ["Ġcat"] = Ok sols1 ∧
    solutions_of cat_dict "sp" ["Ġcat"; "nip"] = Ok sols2 ∧
    ∀ w, w ∈ sols1 → w ∈ sols2.
Proof.
  apply (more_tiles_more_solutions cat_dict "sp" ["Ġcat"] ["Ġcat"; "nip"]).
  unfold multiset. simpl. multiset_solver.
Defined.

(** The body of the second loop of the search, case by case. *)
Lemma test_candidate_cases (wl : list string) (wtc : list (gmap string nat))
    (tc : gmap string nat) (sols : list string) (j : nat) :
  test_candidate wl wtc tc sols j
  = match wtc !! j with
    | None => Raise IndexError
    | Some c =>
        if multiset_subset c tc then
          match wl !! j with
          | Some w => Ok (sols ++ [w])
          | None => Raise IndexError
          end
        else Ok sols
    end.
Proof.
  unfold test_candidate, index. destruct (wtc !! j) as [c|]; simpl; [|done].
  destruct (multiset_subset c tc); [|done]. by destruct (wl !! j).
Qed.

Lemma test_loop_out_of_range (wl : list string) (wtc : list (gmap string nat))
    (tc : gmap string nat) (idxs : list nat) (sols : list string) (i : nat) :
  i ∈ idxs → length wtc ≤ i →
  for_each (test_candidate wl wtc tc) sols idxs = Raise IndexError.
Proof.
  intros Hin Hge. revert sols.
  induction idxs as [|j idxs IH]; intros sols; [by apply elem_of_nil in Hin|].
  cbn [for_each]. rewrite test_candidate_cases.
  destruct (wtc !! j) as [c|] eqn:Hc; [|done].
  assert (i ∈ idxs) as Hi.
  { apply elem_of_cons in Hin as [->|Hin]; [|done].
    apply lookup_lt_Some in Hc. lia. }
  destruct (multiset_subset c tc); [|by apply IH].
  destruct (wl !! j); [by apply IH|done].
Qed.

(** X6: a reverse index that names a position outside
    [word_token_counters] makes the search raise [IndexError] as soon as the
    tiles hold a token listed with it. *)
Theorem search_index_out_of_range (tiles wl : list string)
    (wtc : list (gmap string nat)) (t2w : gmap string (list nat))
    (t : string) (ids : list nat) (i : nat) :
  t ∈ tiles → t2w !! t = Some ids → i ∈ ids → length wtc ≤ i →
  compute_solutions_for_round tiles wl wtc t2w = Raise IndexError.
Proof.
  intros Ht Hids Hi Hge. unfold compute_solutions_for_round.
  rewrite (test_loop_out_of_range _ _ _ _ _ i); [done| |done].
  apply elem_of_elements, elem_of_candidates. right. exists t.
  split; [by apply elem_of_counter_keys|]. by rewrite Hids.
Qed.

Lemma search_index_out_of_range_witness :
  compute_solutions_for_round ["a"] ["w"] [Counter ["a"]] {[ "a" := [0; 1] ]}
  = Raise IndexError.
Proof.
  apply (search_index_out_of_range ["a"] ["w"] [Counter ["a"]]
           {[ "a" := [0; 1] ]} "a" [0; 1] 1).
  - apply list_elem_of_here.
  - vm_compute. reflexivity.
  - apply list_elem_of_further, list_elem_of_here.
  - simpl. lia.
Defined.

(** * Further properties of enrichment *)

Lemma main_loop_prefix (a : args) (ix : indices)
    (rounds out0 out : list (list (string * json))) (res : result unit) :
  main_loop a ix rounds out0 = (out, res) →
  ∃ outs, out = out0 ++ outs ∧
    Forall2 (λ r r', enrich a ix r = Ok r') (take (length outs) rounds) outs ∧
    match res with
    | Ok _ => length outs = length rounds
    | Raise e => ∃ r, rounds !! length outs = Some r ∧ enrich a ix r = Raise e
    end.
Proof.
  revert out0. induction rounds as [|r rounds IH]; intros out0; simpl.
  - intros [= <- <-]. exists []. rewrite app_nil_r. repeat split. constructor.
  - destruct (enrich a ix r) as [r'|e] eqn:He.
    + intros (outs & -> & Hall & Hres)%IH. exists (r' :: outs).
      rewrite <-app_assoc. split; [done|]. simpl. split; [by constructor|].
      destruct res; [by f_equal|done].
    + intros [= <- <-]. exists []. rewrite app_nil_r. split; [done|].
      split; [constructor|]. by exists r.
Qed.

(** X7: the second pass writes the enriched records in the order of the
    input and stops at the first record that raises: a run without error
    writes one line per input record; a run that raises has written the
    records before the failing one, and the error is that of the failing
    record. *)
Theorem enrichment_stops_at_first_error (a : args)
    (dictionary : list (string * json)) (rounds : list (list (string * json))) :
  ∃ ix out res,
    build_indices dictionary (variant a) = Ok ix ∧
    main a dictionary rounds = (Some out, res) ∧
    Forall2 (λ r r', enrich a ix r = Ok r') (take (length out) rounds) out ∧
    match res with
    | Ok _ => length out = length rounds
    | Raise e => ∃ r, rounds !! length out = Some r ∧ enrich a ix r = Raise e
    end.
Proof.
  destruct (build_indices_accepted dictionary (variant a)) as (ix & Hb & _).
  destruct (main_loop a ix rounds []) as [out res] eqn:Hl.
  exists ix, out, res. split; [done|]. split.
  - unfold main. by rewrite Hb, Hl.
  - by apply main_loop_prefix in Hl as (outs & -> & Hall & Hres).
Qed.

Lemma check_variant_ok (a : args) (r : list (string * json)) :
  verify_round_variant a = true →
  check_variant a r = Ok () → dict_get r "variant" = Some (JStr (variant a)).
Proof.
  intros Hv. unfold check_variant. rewrite Hv.
  destruct (dict_get r "variant") as [[| | |rv| |]|]; try discriminate.
  by case_decide; [subst|].
Qed.

(** X8: under [--verify_round_variant] every written record declares the
    requested variant, and a record that declares another one, or none, is
    refused with [ValueError]. *)
Theorem verified_variant (a : args) (dictionary : list (string * json))
    (rounds out : list (list (string * json))) (res : result unit) :
  verify_round_variant a = true →
  main a dictionary rounds = (Some out, res) →
  Forall (λ r', dict_get r' "variant" = Some (JStr (variant a))) out ∧
  ∀ ix r, dict_get r "variant" ≠ Some (JStr (variant a)) →
          enrich a ix r = Raise ValueError.
Proof.
  intros Hv Hm. split.
  - apply main_inv in Hm as (ix & _ & _ & Hall).
    apply Forall_forall. intros r' Hin.
    apply list_elem_of_lookup_1 in Hin as [i Hi].
    destruct (Forall2_lookup_r _ _ _ _ _ Hall Hi) as (r & _ & He).
    pose proof He as (tiles & sols & _ & _ & ->)%enrich_inv.
    rewrite !dict_get_set_ne by done.
    unfold enrich in He.
    destruct (check_variant a r) as [[]|] eqn:Hc; [|discriminate].
    by apply check_variant_ok.
  - intros ix r Hne. unfold enrich, check_variant. rewrite Hv.
    destruct (dict_get r "variant") as [[| | |rv| |]|]; try done.
    case_decide; [by subst|done].
Qed.

Lemma verified_variant_witness :
  Forall (λ r', dict_get r' "variant" = Some (JStr "sp"))
         [[("variant", JStr "sp"); ("tiles", JList [JStr "nip"]);
           ("all_solutions", JList []); ("n_solutions", JInt 0)]] ∧
  ∀ ix r, dict_get r "variant" ≠ Some (JStr "sp") →
          enrich (Args "sp" true) ix r = Raise ValueError.
Proof.
  apply (verified_variant (Args "sp" true) cat_dict
           [[("variant", JStr "sp"); ("tiles", JList [JStr "nip"])]]
           _ (Ok ())).
  - reflexivity.
  - vm_compute. reflexivity.
Defined.

Lemma get_tiles_set (r : list (string * json)) (k : string) (v : json) :
  k ≠ "tiles" → get_tiles (dict_set r k v) = get_tiles r.
Proof. intros Hk. unfold get_tiles. by rewrite dict_get_set_ne. Qed.

(** X9: the [all_solutions] of a written record are what the search finds
    for the record's own tiles with the dictionary and variant of the run,
    hence exactly the brute-force solutions. *)
Theorem all_solutions_of_own_tiles (a : args)
    (dictionary : list (string * json))
    (rounds out : list (list (string * json))) (res : result unit) :
  main a dictionary rounds = (Some out, res) →
  Forall (λ r', ∃ tiles sols,
            get_tiles r' = Ok tiles ∧
            solutions_of dictionary (variant a) tiles = Ok sols ∧
            dict_get r' "all_solutions" = Some (JList (JStr <$> sols)) ∧
            ∀ w, w ∈ sols ↔ w ∈ brute_force dictionary (variant a) tiles)
         out.
Proof.
  intros (ix & Hb & _ & Hall)%main_inv.
  apply Forall_forall. intros r' Hin.
  apply list_elem_of_lookup_1 in Hin as [i Hi].
  destruct (Forall2_lookup_r _ _ _ _ _ Hall Hi) as (r & _ & He).
  apply enrich_inv in He as (tiles & sols & Ht & Hs & ->).
  destruct (solutions_of_spec dictionary (variant a) tiles)
    as (sols' & Hs' & Hiff).
  assert (sols' = sols) as ->.
  { unfold solutions_of in Hs'. rewrite Hb in Hs'. simpl in Hs'. congruence. }
  exists tiles, sols. rewrite !get_tiles_set by done.
  split; [done|]. split; [done|]. split; [|done].
  rewrite dict_get_set_ne by done. apply dict_get_set_eq.
Qed.

Lemma all_solutions_of_own_tiles_witness :
  Forall (λ r', ∃ tiles sols,
            get_tiles r' = Ok tiles ∧
            solutions_of cat_dict "sp" tiles = Ok sols ∧
            dict_get r' "all_solutions" = Some (JList (JStr <$> sols)) ∧
            ∀ w, w ∈ sols ↔ w ∈ brute_force cat_dict "sp" tiles)
         [[("tiles", JList [JStr "Ġcat"; JStr "nip"]);
           ("all_solutions", JList [JStr "cat"; JStr "catnip"]);
           ("n_solutions", JInt 2)]].
Proof.
  apply (all_solutions_of_own_tiles (Args "sp" false) cat_dict
           [[("tiles", JList [JStr "Ġcat"; JStr "nip"])]] _ (Ok ())).
  vm_compute. reflexivity.
Defined.

Lemma dict_set_get_id {V : Type} (d : list (string * V)) (k : string) (v : V) :
  dict_get d k = Some v → dict_set d k v = d.
Proof.
  induction d as [|[k' v'] d IH]; simpl; [done|].
  case_decide as Hk.
  - intros [= ->]. by subst.
  - intros Hg. by rewrite IH.
Qed.

(** X10: the second pass can be run again on its own output: a record that
    was enriched is left as it is by a second enrichment with the same
    index and arguments. *)
Theorem enrich_idempotent (a : args) (ix : indices) (r r' : list (string * json)) :
  enrich a ix r = Ok r' → enrich a ix r' = Ok r'.
Proof.
  intros He. pose proof He as (tiles & sols & Ht & Hs & ->)%enrich_inv.
  unfold enrich in *.
  destruct (check_variant a r) as [[]|] eqn:Hc; [|discriminate].
  assert (check_variant a (dict_set (dict_set r "all_solutions"
            (JList (JStr <$> sols))) "n_solutions"
            (JInt (Z.of_nat (length sols)))) = Ok ()) as ->.
  { unfold check_variant in *. by rewrite !dict_get_set_ne. }
  simpl. rewrite !get_tiles_set by done. rewrite Ht. simpl. rewrite Hs. simpl.
  f_equal. rewrite (dict_set_get_id _ "all_solutions").
  - apply dict_set_get_id, dict_get_set_eq.
  - rewrite dict_get_set_ne by done. apply dict_get_set_eq.
Qed.

Lemma enrich_idempotent_witness :
  enrich (Args "sp" false) empty_indices
         [("tiles", JList [JStr "x"]); ("all_solutions", JList []);
          ("n_solutions", JInt 0)]
  = Ok [("tiles", JList [JStr "x"]); ("all_solutions", JList []);
        ("n_solutions", JInt 0)].
Proof.
  apply (enrich_idempotent (Args "sp" false) empty_indices
           [("tiles", JList [JStr "x"])]).
  vm_compute. reflexivity.
Defined.

(** * Further properties of [precompute_rounds.py] *)

(** X11: the word pool is built without error; it holds exactly the words
    whose entry passes [is_entry_ok] with a token count within the bounds,
    in the order of the dictionary; bounds that admit no count give the
    empty pool. *)
Theorem word_pool_spec (dictionary : list (string * json)) (variant : string)
    (min_tokens max_tokens : Z) :
  ∃ pool,
    Rounds.build_word_pool dictionary variant min_tokens max_tokens = Ok pool ∧
    (∀ w, w ∈ pool ↔
          ∃ e toks, (w, e) ∈ dictionary ∧ Rounds.is_entry_ok e variant = true ∧
                    entry_tokens e variant = Ok toks ∧
                    (min_tokens ≤ Z.of_nat (length toks) ≤ max_tokens)%Z) ∧
    pool `sublist_of` dict_keys dictionary ∧
    ((max_tokens < min_tokens)%Z ∨ (max_tokens < 1)%Z → pool = []).
Proof.
  eexists. split; [apply build_word_pool_eq|]. split; [|split].
  - intros w. rewrite list_elem_of_fmap. split.
    + intros ([w' toks] & -> & [Hr Hin]%list_elem_of_filter).
      apply elem_of_accepted in Hin as (e & Hin & Hok & Ht).
      by exists e, toks.
    + intros (e & toks & Hin & Hok & Ht & Hr). exists (w, toks).
      split; [done|]. apply list_elem_of_filter. split; [done|].
      apply elem_of_accepted. by exists e.
  - etransitivity; [|apply (accepted_keys_sublist dictionary variant)].
    apply fmap_sublist, sublist_filter.
  - intros Hb. apply elem_of_nil_inv.
    intros w ([w' toks] & -> & [[H1 H2] Hin]%list_elem_of_filter)%list_elem_of_fmap.
    simpl in *.
    pose proof (accepted_nonempty dictionary variant) as Hne.
    rewrite Forall_forall in Hne. specialize (Hne _ Hin). simpl in Hne.
    destruct toks; [done|]. simpl in *. lia.
Qed.

Lemma submseteq_NoDup_l {A : Type} (l1 l2 : list A) :
  l1 ⊆+ l2 → NoDup l2 → NoDup l1.
Proof.
  intros (l & Hsub & Hp)%submseteq_sublist_l Hnd.
  eapply sublist_NoDup; [|exact Hsub]. by rewrite Hp.
Qed.

Section generator_more.
Context `{Random G}.
Variables (dictionary : list (string * json)) (variant : string).

(** The three outcomes of [pick_targets]. *)
Lemma pick_targets_cases (pool : list string) (k : Z) (g : G) :
  ((Z.of_nat (length pool) < k)%Z →
   Rounds.pick_targets pool dictionary variant k 2000%Z g = Raise ValueError) ∧
  ((k < 0)%Z →
   Rounds.pick_targets pool dictionary variant k 2000%Z g = Raise ValueError) ∧
  ((0 ≤ k ≤ Z.of_nat (length pool))%Z →
   ∃ targets g',
     Rounds.pick_targets pool dictionary variant k 2000%Z g = Ok (targets, g') ∧
     length targets = Z.to_nat k ∧ targets ⊆+ pool ∧
     (NoDup pool → NoDup targets)).
Proof.
  unfold Rounds.pick_targets, random_sample. repeat split.
  - intros Hk. apply Z.ltb_lt in Hk. by rewrite Hk.
  - intros Hk. destruct (Z.ltb_spec (Z.of_nat (length pool)) k); [done|].
    simpl. apply Z.ltb_lt in Hk. by rewrite Hk.
  - intros [Hk0 Hk]. destruct (Z.ltb_spec (Z.of_nat (length pool)) k); [lia|].
    simpl. destruct (Z.ltb_spec k 0); [lia|]. simpl.
    destruct (rand_sample_spec pool (Z.to_nat k) g) as [Hsub Hlen]; [lia|].
    destruct (rand_sample pool (Z.to_nat k) g) as [targets g'] eqn:Hs.
    exists targets, g'. simpl in *. repeat (split; [done|]).
    intros Hnd. by eapply submseteq_NoDup_l.
Qed.

(** X12: [pick_targets] raises [ValueError] when the pool is smaller than
    [k_targets] or [k_targets] is negative, and otherwise returns
    [k_targets] words drawn from the pool without replacement, pairwise
    different when the pool has no repeated word. *)
Theorem pick_targets_spec (pool : list string) (k : Z) (g : G) :
  ((Z.of_nat (length pool) < k)%Z →
   Rounds.pick_targets pool dictionary variant k 2000%Z g = Raise ValueError) ∧
  ((k < 0)%Z →
   Rounds.pick_targets pool dictionary variant k 2000%Z g = Raise ValueError) ∧
  ((0 ≤ k ≤ Z.of_nat (length pool))%Z →
   ∃ targets g',
     Rounds.pick_targets pool dictionary variant k 2000%Z g = Ok (targets, g') ∧
     length targets = Z.to_nat k ∧ targets ⊆+ pool ∧
     (NoDup pool → NoDup targets)).
Proof.
  exact (pick_targets_cases pool k g).
Qed.

Lemma random_choice_total (seq : list string) (g : G) :
  seq ≠ [] → ∃ x g', random_choice seq g = Ok (x, g') ∧ x ∈ seq.
Proof.
  intros Hne. unfold random_choice. destruct seq as [|y seq]; [done|].
  pose proof (rand_below_spec (length (y :: seq)) g) as Hlt.
  destruct (rand_below (length (y :: seq)) g) as [i g'].
  destruct (lookup_lt_is_Some_2 (y :: seq) i) as [x Hx]; [simpl in *; lia|].
  exists x, g'. unfold index. rewrite Hx. simpl. split; [done|].
  by eapply list_elem_of_lookup_2.
Qed.

Lemma distractor_loop_spec (n : nat) (pool acc ds : list string) (g g' : G) :
  Rounds.sample_distractor_tokens_loop n pool dictionary variant acc g
  = Ok (ds, g') →
  ∃ new, ds = acc ++ new ∧ length new = n ∧
    ∀ t, t ∈ new → ∃ w toks, w ∈ pool ∧ word_tokens dictionary w variant = Ok toks
                             ∧ t ∈ toks.
Proof.
  revert acc g. induction n as [|n IH]; intros acc g; simpl.
  - intros [= <- <-]. exists []. rewrite app_nil_r. repeat split.
    by intros t ?%elem_of_nil.
  - destruct (random_choice pool g) as [[w g1]|] eqn:Hw; simpl; [|discriminate].
    destruct (word_tokens dictionary w variant) as [toks|] eqn:Ht; simpl;
      [|discriminate].
    destruct (random_choice toks g1) as [[t g2]|] eqn:Hc; simpl; [|discriminate].
    intros (new & -> & Hlen & Hprov)%IH. exists (t :: new).
    rewrite <-app_assoc. split; [done|]. split; [simpl; lia|].
    intros t' [->|Hin]%elem_of_cons; [|by apply Hprov].
    exists w, toks. split; [by eapply random_choice_elem_of|].
    split; [done|]. by eapply random_choice_elem_of.
Qed.

Lemma distractor_loop_total (n : nat) (pool acc : list string) (g : G) :
  pool ≠ [] →
  (∀ w, w ∈ pool → ∃ toks, word_tokens dictionary w variant = Ok toks ∧ toks ≠ []) →
  ∃ ds g',
    Rounds.sample_distractor_tokens_loop n pool dictionary variant acc g
    = Ok (ds, g').
Proof.
  intros Hne Hpool. revert acc g. induction n as [|n IH]; intros acc g; simpl.
  - by eauto.
  - destruct (random_choice_total pool g Hne) as (w & g1 & -> & Hw). simpl.
    destruct (Hpool w Hw) as (toks & -> & Htoks). simpl.
    destruct (random_choice_total toks g1 Htoks) as (t & g2 & -> & _). simpl.
    apply IH.
Qed.

(** The outcomes of [sample_distractor_tokens]. *)
Lemma distractor_tokens_cases (pool : list string) (n : Z) (g : G) :
  ((n ≤ 0)%Z →
   Rounds.sample_distractor_tokens pool dictionary variant n g = Ok ([], g)) ∧
  ((0 < n)%Z → pool = [] →
   Rounds.sample_distractor_tokens pool dictionary variant n g
   = Raise IndexError) ∧
  (∀ ds g',
     Rounds.sample_distractor_tokens pool dictionary variant n g = Ok (ds, g') →
     length ds = Z.to_nat n ∧
     ∀ t, t ∈ ds → ∃ w toks, w ∈ pool ∧
                             word_tokens dictionary w variant = Ok toks ∧
                             t ∈ toks) ∧
  (pool ≠ [] →
   (∀ w, w ∈ pool →
         ∃ toks, word_tokens dictionary w variant = Ok toks ∧ toks ≠ []) →
   ∃ ds g',
     Rounds.sample_distractor_tokens pool dictionary variant n g = Ok (ds, g')).
Proof.
  unfold Rounds.sample_distractor_tokens. repeat split.
  - intros Hn. by replace (Z.to_nat n) with 0 by lia.
  - intros Hn ->. destruct (Z.to_nat n) as [|m] eqn:Hm; [lia|]. done.
  - by apply distractor_loop_spec in H0 as (new & -> & Hlen & _).
  - by apply distractor_loop_spec in H0 as (new & -> & _ & Hprov).
  - intros Hne Hpool. by apply distractor_loop_total.
Qed.

(** The token list of a validated word is read without error and is not
    empty. *)
Lemma validated_tokens (w : string) :
  validated dictionary variant w →
  ∃ toks, word_tokens dictionary w variant = Ok toks ∧ toks ≠ [].
Proof.
  intros (e & He & Hok). unfold word_tokens. rewrite He.
  apply is_entry_ok_tokens. by rewrite <-rounds_is_entry_ok.
Qed.

(** X13: on a pool of validated words, as [main] passes it,
    [sample_distractor_tokens] returns no token for a count below one,
    raises [IndexError] for a positive count and an empty pool, and
    otherwise returns exactly [n_distractors] tokens, each a token of a word
    of the pool. *)
Theorem sample_distractor_tokens_spec (pool : list string) (n : Z) (g : G) :
  (∀ w, w ∈ pool → validated dictionary variant w) →
  ((n ≤ 0)%Z →
   Rounds.sample_distractor_tokens pool dictionary variant n g = Ok ([], g)) ∧
  ((0 < n)%Z → pool = [] →
   Rounds.sample_distractor_tokens pool dictionary variant n g
   = Raise IndexError) ∧
  (pool ≠ [] →
   ∃ ds g',
     Rounds.sample_distractor_tokens pool dictionary variant n g = Ok (ds, g') ∧
     length ds = Z.to_nat n ∧
     ∀ t, t ∈ ds → ∃ w toks, w ∈ pool ∧
                             word_tokens dictionary w variant = Ok toks ∧
                             t ∈ toks).
Proof.
  intros Hval.
  destruct (distractor_tokens_cases pool n g) as (Hnone & Hempty & Hres & Htot).
  split; [done|]. split; [done|]. intros Hne.
  destruct (Htot Hne) as (ds & g' & Hrun).
  { intros w Hw. by apply validated_tokens, Hval. }
  exists ds, g'. split; [done|]. by apply Hres in Hrun.
Qed.

End generator_more.

Lemma sample_distractor_tokens_spec_witness :
  ((2 ≤ 0)%Z →
   Rounds.sample_distractor_tokens ["cat"; "catnip"] cat_dict "sp" 2 1
   = Ok ([], 1)) ∧
  ((0 < 2)%Z → ["cat"; "catnip"] = [] →
   Rounds.sample_distractor_tokens ["cat"; "catnip"] cat_dict "sp" 2 1
   = Raise IndexError) ∧
  (["cat"; "catnip"] ≠ [] →
   ∃ ds g',
     Rounds.sample_distractor_tokens ["cat"; "catnip"] cat_dict "sp" 2 1
     = Ok (ds, g') ∧
     length ds = Z.to_nat 2 ∧
     ∀ t, t ∈ ds → ∃ w toks, w ∈ ["cat"; "catnip"] ∧
                             word_tokens cat_dict w "sp" = Ok toks ∧
                             t ∈ toks).
Proof.
  apply (sample_distractor_tokens_spec cat_dict "sp" ["cat"; "catnip"] 2 1).
  intros w Hw. apply elem_of_cons in Hw as [->|Hw].
  - eexists. split; reflexivity.
  - apply elem_of_cons in Hw as [->|Hw]; [|by apply elem_of_nil in Hw].
    eexists. split; reflexivity.
Defined.

Section round_more.
Context `{Random G}.
Variables (dictionary : list (string * json)) (variant : string).

Lemma add_target_cases (st : list string * list (string * list string))
    (w : string) :
  Rounds.add_target dictionary variant st w
  = match word_tokens dictionary w variant with
    | Ok toks => Ok (st.1 ++ toks, dict_set st.2 w toks)
    | Raise e => Raise e
    end.
Proof. unfold Rounds.add_target. by destruct (word_tokens _ _ _). Qed.

Lemma add_targets_spec (targets : list string)
    (st st' : list string * list (string * list string)) :
  for_each (Rounds.add_target dictionary variant) st targets = Ok st' →
  ∃ tokss,
    Forall2 (λ w toks, word_tokens dictionary w variant = Ok toks) targets tokss ∧
    st'.1 = st.1 ++ concat tokss ∧
    (∀ w, w ∈ targets → dict_get st'.2 w
                        = match word_tokens dictionary w variant with
                          | Ok toks => Some toks
                          | Raise _ => None
                          end) ∧
    (∀ w, w ∉ targets → dict_get st'.2 w = dict_get st.2 w) ∧
    (NoDup (dict_keys st.2 ++ targets) →
     dict_keys st'.2 = dict_keys st.2 ++ targets).
Proof.
  revert st. induction targets as [|w targets IH]; intros st; cbn [for_each].
  - intros [= <-]. exists []. split; [constructor|]. simpl.
    rewrite !app_nil_r. repeat split; try done. by intros w ?%elem_of_nil.
  - rewrite add_target_cases.
    destruct (word_tokens dictionary w variant) as [toks|] eqn:Ht; simpl;
      [|discriminate].
    intros (tokss & Hall & Htiles & Hin & Hout & Hkeys)%IH. simpl in *.
    exists (toks :: tokss). split; [by constructor|]. split.
    { rewrite Htiles. simpl. by rewrite app_assoc. }
    split; [|split].
    + intros w' Hw'. destruct (decide (w' ∈ targets)) as [Hi|Hni];
        [by apply Hin|].
      apply elem_of_cons in Hw' as [->|?]; [|done].
      rewrite Hout by done. rewrite dict_get_set_eq. by rewrite Ht.
    + intros w' Hw'. apply not_elem_of_cons in Hw' as [Hne Hni].
      rewrite Hout by done. by apply dict_get_set_ne.
    + intros Hnd. rewrite Hkeys.
      * rewrite dict_keys_set. rewrite decide_False.
        -- by rewrite <-app_assoc.
        -- intros Hk. apply NoDup_app in Hnd as (_ & Hd & _).
           apply (Hd w Hk), list_elem_of_here.
      * rewrite dict_keys_set. rewrite decide_False.
        -- by rewrite <-app_assoc.
        -- intros Hk. apply NoDup_app in Hnd as (_ & Hd & _).
           apply (Hd w Hk), list_elem_of_here.
Qed.

(** What [round_tiles_from_targets] returns. *)
Lemma round_tiles_shape (targets pool : list string) (n : Z) (sh : bool)
    (g g' : G) (tiles : list string) (tm : list (string * list string)) :
  Rounds.round_tiles_from_targets targets dictionary variant n pool sh g
  = Ok (tiles, tm, g') →
  ∃ tokss ds,
    Forall2 (λ w toks, word_tokens dictionary w variant = Ok toks) targets tokss ∧
    length ds = Z.to_nat n ∧
    tiles ≡ₚ concat tokss ++ ds ∧
    (sh = false → tiles = concat tokss ++ ds) ∧
    length tiles = sum_list (length <$> tokss) + Z.to_nat n ∧
    (∀ w toks, dict_get tm w = Some toks
               ↔ w ∈ targets ∧ word_tokens dictionary w variant = Ok toks) ∧
    (NoDup targets → dict_keys tm = targets).
Proof.
  unfold Rounds.round_tiles_from_targets.
  destruct (for_each _ _ targets) as [st|] eqn:Hst; simpl; [|discriminate].
  apply add_targets_spec in Hst as (tokss & Hall & Htiles & Hin & Hout & Hkeys).
  destruct (Rounds.sample_distractor_tokens _ _ _ _ _) as [[ds g1]|] eqn:Hds;
    simpl; [|discriminate].
  destruct (distractor_tokens_cases dictionary variant pool n g)
    as (_ & _ & Hspec & _).
  destruct (Hspec _ _ Hds) as [Hlen _]. simpl in Htiles.
  assert (∀ tiles', tiles' ≡ₚ concat tokss ++ ds →
            length tiles' = sum_list (length <$> tokss) + Z.to_nat n) as Hsum.
  { intros tiles' ->. rewrite length_app, Hlen. f_equal. clear.
    induction tokss as [|toks tokss IH]; simpl; [done|].
    by rewrite length_app, IH. }
  assert (∀ w toks, dict_get st.2 w = Some toks
            ↔ w ∈ targets ∧ word_tokens dictionary w variant = Ok toks) as Hmap.
  { intros w toks. destruct (decide (w ∈ targets)) as [Hw|Hw].
    - rewrite (Hin w Hw). destruct (word_tokens dictionary w variant); split.
      + by intros [= ->].
      + by intros [_ [= ->]].
      + done.
      + by intros [_ ?].
    - rewrite (Hout w Hw). simpl. split; [done|]. by intros [? _]. }
  destruct sh.
  - pose proof (rand_shuffle_spec (st.1 ++ ds) g1) as Hp.
    destruct (rand_shuffle (st.1 ++ ds) g1) as [tiles' g2]. simpl in Hp.
    intros [= <- <- <-]. rewrite Htiles in Hp. exists tokss, ds.
    repeat (split; [done|]). split; [by apply Hsum|]. split; [done|].
    intros Hnd. by apply Hkeys.
  - intros [= <- <- <-]. rewrite Htiles. exists tokss, ds.
    repeat (split; [done|]). split; [by apply Hsum|]. split; [done|].
    intros Hnd. by apply Hkeys.
Qed.

(** The loop over the targets runs to its end when every target is
    validated. *)
Lemma add_targets_total (targets : list string)
    (st : list string * list (string * list string)) :
  (∀ w, w ∈ targets → validated dictionary variant w) →
  ∃ st', for_each (Rounds.add_target dictionary variant) st targets = Ok st'.
Proof.
  revert st. induction targets as [|w targets IH]; intros st Hval;
    cbn [for_each]; [by eauto|].
  rewrite add_target_cases.
  destruct (validated_tokens dictionary variant w) as (toks & -> & _).
  { apply Hval, list_elem_of_here. }
  simpl. apply IH. intros w' Hw'. by apply Hval, list_elem_of_further.
Qed.

(** X14: for validated targets and a pool of validated words, as [main]
    passes them, [round_tiles_from_targets] returns whenever the pool is not
    empty or no distractor is asked for. The tiles are a rearrangement of
    the token sequences of the targets followed by the distractors (that
    sequence itself without shuffling), so their number is the sum of the
    targets' token counts plus the distractor count; [target_map] maps every
    target to its token sequence in the dictionary, and lists the targets in
    order when they are pairwise different. *)
Theorem round_tiles_spec (targets pool : list string) (n : Z) (sh : bool)
    (g : G) :
  (∀ w, w ∈ targets ++ pool → validated dictionary variant w) →
  pool ≠ [] ∨ (n ≤ 0)%Z →
  ∃ tiles tm g' tokss ds,
    Rounds.round_tiles_from_targets targets dictionary variant n pool sh g
    = Ok (tiles, tm, g') ∧
    Forall2 (λ w toks, word_tokens dictionary w variant = Ok toks) targets tokss ∧
    length ds = Z.to_nat n ∧
    tiles ≡ₚ concat tokss ++ ds ∧
    (sh = false → tiles = concat tokss ++ ds) ∧
    length tiles = sum_list (length <$> tokss) + Z.to_nat n ∧
    (∀ w toks, dict_get tm w = Some toks
               ↔ w ∈ targets ∧ word_tokens dictionary w variant = Ok toks) ∧
    (NoDup targets → dict_keys tm = targets).
Proof.
  intros Hval Hpool.
  assert (∃ res, Rounds.round_tiles_from_targets targets dictionary variant n
                   pool sh g = Ok res) as [[[tiles tm] g'] Hrun].
  { unfold Rounds.round_tiles_from_targets.
    destruct (add_targets_total targets ([], [])) as [st ->].
    { intros w Hw. apply Hval, elem_of_app. by left. }
    simpl.
    assert (∃ ds g1, Rounds.sample_distractor_tokens pool dictionary variant
                       n g = Ok (ds, g1)) as (ds & g1 & ->).
    { destruct (distractor_tokens_cases dictionary variant pool n g)
        as (Hnone & _ & _ & Htot).
      destruct Hpool as [Hne|Hn]; [|by eauto].
      apply Htot; [done|]. intros w Hw.
      apply validated_tokens, Hval, elem_of_app. by right. }
    simpl. destruct sh; [|by eauto].
    destruct (rand_shuffle (st.1 ++ ds) g1). by eauto. }
  exists tiles, tm, g'.
  destruct (round_tiles_shape _ _ _ _ _ _ _ _ Hrun) as (tokss & ds & Hshape).
  by exists tokss, ds.
Qed.

End round_more.

Lemma round_tiles_spec_witness :
  ∃ tiles tm g' tokss ds,
    Rounds.round_tiles_from_targets ["catnip"; "cat"] cat_dict "sp" 1
      ["cat"; "catnip"] true 1 = Ok (tiles, tm, g') ∧
    Forall2 (λ w toks, word_tokens cat_dict w "sp" = Ok toks)
            ["catnip"; "cat"] tokss ∧
    length ds = Z.to_nat 1 ∧
    tiles ≡ₚ concat tokss ++ ds ∧
    (true = false → tiles = concat tokss ++ ds) ∧
    length tiles = sum_list (length <$> tokss) + Z.to_nat 1 ∧
    (∀ w toks, dict_get tm w = Some toks
               ↔ w ∈ ["catnip"; "cat"] ∧ word_tokens cat_dict w "sp" = Ok toks) ∧
    (NoDup ["catnip"; "cat"] → dict_keys tm = ["catnip"; "cat"]).
Proof.
  apply (round_tiles_spec cat_dict "sp" ["catnip"; "cat"] ["cat"; "catnip"] 1
           true 1).
  - intros w Hw. apply elem_of_app in Hw as [Hw|Hw];
      repeat (apply elem_of_cons in Hw as [->|Hw];
              [eexists; split; reflexivity|]);
      by apply elem_of_nil in Hw.
  - left. discriminate.
Defined.

(** * Further properties of the batch driver *)

(** X15: the written rounds are numbered from zero in the order in which
    they are written: line [i] has [round_id] [i]. *)
Theorem round_ids_sequential `{Random G} (a : Rounds.args)
    (dictionary : list (string * json)) :
  ∃ run, Rounds.main a dictionary = Some run ∧
    ∀ lines, Rounds.out_file run = Some lines →
      ∀ i r, lines !! i = Some r →
             dict_get r "round_id" = Some (JInt (Z.of_nat i)).
Proof.
  destruct (main_lines a dictionary
     (λ s, Rounds.written s = Z.of_nat (length (Rounds.out_f s)) ∧
           ∀ i r, Rounds.out_f s !! i = Some r →
                  dict_get r "round_id" = Some (JInt (Z.of_nat i))))
    as (run & Hm & Hlines).
  - split; [done|]. by intros i r.
  - intros s s' [Hw Hids] (targets & g1 & tiles & tm & _ & _ & _ &
                    [(-> & -> & _)|(_ & -> & -> & _)])%main_body_inv; [done|].
    split; [rewrite length_app; simpl; lia|].
    intros i r [Hi|[Hi Hr]]%lookup_app_Some; [by apply Hids|].
    apply list_lookup_singleton_Some in Hr as [Hz <-].
    replace i with (length (Rounds.out_f s)) by lia. by rewrite <-Hw.
  - exists run. split; [done|]. intros lines (st & [_ Hids] & ->)%Hlines. done.
Qed.

Lemma pool_of_NoDup (a : Rounds.args) (dictionary : list (string * json)) :
  dict_wf dictionary → NoDup (pool_of a dictionary).
Proof.
  intros Hwf. eapply sublist_NoDup; [apply (accepted_NoDup _ (Rounds.variant a) Hwf)|].
  apply fmap_sublist, sublist_filter.
Qed.

(** The pool that [main] builds holds validated words only. *)
Lemma pool_of_validated (a : Rounds.args) (dictionary : list (string * json))
    (w : string) :
  dict_wf dictionary → w ∈ pool_of a dictionary →
  validated dictionary (Rounds.variant a) w.
Proof.
  intros Hwf [toks (e & Hin & Hok & _)%elem_of_accepted]%pool_accepted.
  exists e. split; [by apply dict_get_wf|]. by rewrite rounds_is_entry_ok.
Qed.

(** ** The targets of a written round *)

Lemma multiset_concat_sub (tokss : list (list string)) (toks : list string) :
  toks ∈ tokss → multiset toks ⊆ multiset (concat tokss).
Proof.
  induction tokss as [|x tokss IH]; [by intros ?%elem_of_nil|].
  cbn [concat]. rewrite multiset_app.
  intros [->|Hin]%elem_of_cons; [multiset_solver|].
  specialize (IH Hin). multiset_solver.
Qed.

(** A candidate round, as [main] builds it from the sample of [pick_targets]
    and the tiles of [round_tiles_from_targets]. *)
Lemma candidate_round_solvable `{Random G} (a : Rounds.args)
    (dictionary : list (string * json)) (g g1 g2 : G) (n : Z)
    (targets tiles : list string) (tm : list (string * list string)) :
  dict_wf dictionary →
  Rounds.pick_targets (pool_of a dictionary) dictionary (Rounds.variant a)
                      (Rounds.k_targets a) 2000%Z g = Ok (targets, g1) →
  Rounds.round_tiles_from_targets targets dictionary (Rounds.variant a)
    (Rounds.distractors a) (pool_of a dictionary) true g1 = Ok (tiles, tm, g2) →
  dict_keys tm = targets ∧
  targets_solvable a dictionary (Rounds.round_obj a n tiles tm).
Proof.
  intros Hwf Hpick Hround.
  assert (0 ≤ Rounds.k_targets a)%Z as Hk.
  { destruct (Z.le_gt_cases 0 (Rounds.k_targets a)) as [|Hneg]; [done|].
    destruct (pick_targets_cases dictionary (Rounds.variant a)
                (pool_of a dictionary) (Rounds.k_targets a) g)
      as (_ & Hraise & _).
    rewrite Hraise in Hpick by lia. discriminate. }
  apply pick_targets_pool in Hpick as [Hsub Hlen].
  assert (NoDup targets) as Hnd.
  { eapply submseteq_NoDup_l; [exact Hsub|]. by apply pool_of_NoDup. }
  apply round_tiles_shape in Hround
    as (tokss & ds & Hall & _ & Hperm & _ & _ & _ & Hkeys).
  specialize (Hkeys Hnd). split; [done|].
  assert (multiset (concat tokss) ⊆ multiset tiles) as Hcover.
  { rewrite (multiset_perm _ _ Hperm), multiset_app. multiset_solver. }
  assert (Forall (λ toks, multiset toks ⊆ multiset tiles) tokss) as Heach.
  { apply Forall_forall. intros toks Hin.
    pose proof (multiset_concat_sub _ _ Hin). multiset_solver. }
  destruct (solutions_of_spec dictionary (Rounds.variant a) tiles)
    as (sols & Hs & Hiff).
  exists tiles, targets, tokss, sols.
  split; [apply get_tiles_round_obj|].
  split; [by rewrite get_targets_round_obj, Hkeys|].
  split; [lia|]. split; [done|]. split; [done|]. split; [done|].
  split; [done|]. split; [done|].
  intros w Hw. apply Hiff, elem_of_brute_force.
  destruct (list_elem_of_lookup_1 _ _ Hw) as [i Hi].
  destruct (Forall2_lookup_l _ _ _ _ _ Hall Hi) as (toks & Htoks & Hwt).
  exists toks. split.
  - assert (w ∈ pool_of a dictionary) as Hpool
      by (by eapply elem_of_submseteq).
    apply pool_accepted in Hpool as [toks0 Hacc].
    rewrite (word_tokens_accepted _ _ _ _ Hwf Hacc) in Hwt.
    by injection Hwt as <-.
  - rewrite Forall_forall in Heach. apply Heach.
    by eapply list_elem_of_lookup_2.
Qed.

(** C3: with a dictionary that holds each word once, every written round
    names as its targets the [k_targets] words that [pick_targets] drew
    from the pool; the token sequences of the targets, taken together, are a
    sub-multiset of the round's tiles; and every target is among the
    solutions that the search finds for the round's tiles with the same
    dictionary and variant. A round is written only from the sample of
    [pick_targets] and the tiles of [round_tiles_from_targets] of the same
    iteration. *)
Theorem targets_are_solutions `{Random G} (a : Rounds.args)
    (dictionary : list (string * json)) :
  dict_wf dictionary →
  (∃ run, Rounds.main a dictionary = Some run ∧
     ∀ lines, Rounds.out_file run = Some lines →
              Forall (targets_solvable a dictionary) lines) ∧
  ∀ st st',
    Rounds.main_body a dictionary (pool_of a dictionary) st = Ok st' →
    Rounds.out_f st' = Rounds.out_f st ∨
    ∃ targets g1 tiles tm,
      Rounds.pick_targets (pool_of a dictionary) dictionary (Rounds.variant a)
        (Rounds.k_targets a) 2000%Z (Rounds.rng st) = Ok (targets, g1) ∧
      Rounds.round_tiles_from_targets targets dictionary (Rounds.variant a)
        (Rounds.distractors a) (pool_of a dictionary) true g1
      = Ok (tiles, tm, Rounds.rng st') ∧
      Rounds.out_f st'
      = Rounds.out_f st ++ [Rounds.round_obj a (Rounds.written st) tiles tm] ∧
      dict_keys tm = targets ∧
      targets_solvable a dictionary
        (Rounds.round_obj a (Rounds.written st) tiles tm).
Proof.
  intros Hwf.
  assert (∀ st st',
    Rounds.main_body a dictionary (pool_of a dictionary) st = Ok st' →
    Rounds.out_f st' = Rounds.out_f st ∨
    ∃ targets g1 tiles tm,
      Rounds.pick_targets (pool_of a dictionary) dictionary (Rounds.variant a)
        (Rounds.k_targets a) 2000%Z (Rounds.rng st) = Ok (targets, g1) ∧
      Rounds.round_tiles_from_targets targets dictionary (Rounds.variant a)
        (Rounds.distractors a) (pool_of a dictionary) true g1
      = Ok (tiles, tm, Rounds.rng st') ∧
      Rounds.out_f st'
      = Rounds.out_f st ++ [Rounds.round_obj a (Rounds.written st) tiles tm] ∧
      dict_keys tm = targets ∧
      targets_solvable a dictionary
        (Rounds.round_obj a (Rounds.written st) tiles tm)) as Hbody.
  { intros st st' (targets & g1 & tiles & tm & Hpick & Hround & _ &
                   [(_ & Hout & _)|(_ & _ & Hout & _)])%main_body_inv;
      [by left|]. right.
    destruct (candidate_round_solvable a dictionary _ _ _ (Rounds.written st)
                _ _ _ Hwf Hpick Hround) as [Hkeys Hsolv].
    by exists targets, g1, tiles, tm. }
  split; [|exact Hbody].
  destruct (main_lines a dictionary
     (λ s, Forall (targets_solvable a dictionary) (Rounds.out_f s)))
    as (run & Hm & Hlines).
  - constructor.
  - intros s s' HP [->|(targets & g1 & tiles & tm & _ & _ & -> & _ & Hsolv)]%Hbody;
      [done|].
    apply Forall_app. split; [done|]. by constructor.
  - exists run. split; [done|]. by intros lines (st & HP & ->)%Hlines.
Qed.

Lemma targets_are_solutions_witness :
  (∃ run, Rounds.main pet_args pet_dict = Some run ∧
     ∀ lines, Rounds.out_file run = Some lines →
              Forall (targets_solvable pet_args pet_dict) lines) ∧
  ∀ st st' : Rounds.loop_state nat,
    Rounds.main_body pet_args pet_dict (pool_of pet_args pet_dict) st = Ok st' →
    Rounds.out_f st' = Rounds.out_f st ∨
    ∃ targets g1 tiles tm,
      Rounds.pick_targets (pool_of pet_args pet_dict) pet_dict
        (Rounds.variant pet_args) (Rounds.k_targets pet_args) 2000%Z
        (Rounds.rng st) = Ok (targets, g1) ∧
      Rounds.round_tiles_from_targets targets pet_dict (Rounds.variant pet_args)
        (Rounds.distractors pet_args) (pool_of pet_args pet_dict) true g1
      = Ok (tiles, tm, Rounds.rng st') ∧
      Rounds.out_f st'
      = Rounds.out_f st
        ++ [Rounds.round_obj pet_args (Rounds.written st) tiles tm] ∧
      dict_keys tm = targets ∧
      targets_solvable pet_args pet_dict
        (Rounds.round_obj pet_args (Rounds.written st) tiles tm).
Proof.
  apply (targets_are_solutions pet_args pet_dict).
  apply (bool_decide_unpack _). vm_compute. reflexivity.
Defined.

(** X16: with a dictionary that holds each word once, every written round
    records the variant and the generation parameters of the run, names
    exactly [k_targets] pairwise different targets, all words of the pool,
    maps each of them to its token sequence in the dictionary, and holds as
    many tiles as the targets have tokens plus [distractors]. *)
Theorem round_record_spec `{Random G} (a : Rounds.args)
    (dictionary : list (string * json)) :
  dict_wf dictionary →
  ∃ run, Rounds.main a dictionary = Some run ∧
    ∀ lines, Rounds.out_file run = Some lines →
      Forall (λ r, ∃ targets tokss tiles,
        dict_get r "variant" = Some (JStr (Rounds.variant a)) ∧
        dict_get r "meta"
        = Some (JDict [ ("k_targets", JInt (Rounds.k_targets a));
                        ("distractors", JInt (Rounds.distractors a));
                        ("min_tokens", JInt (Rounds.min_tokens a));
                        ("max_tokens", JInt (Rounds.max_tokens a));
                        ("seed", JInt (Rounds.seed a)) ]) ∧
        dict_get r "targets" = Some (JList (JStr <$> targets)) ∧
        dict_get r "target_tokens"
        = Some (JDict (zip targets ((λ toks, JList (JStr <$> toks)) <$> tokss))) ∧
        get_tiles r = Ok tiles ∧
        NoDup targets ∧ Z.of_nat (length targets) = Rounds.k_targets a ∧
        (∀ w, w ∈ targets → w ∈ pool_of a dictionary) ∧
        Forall2 (λ w toks, word_tokens dictionary w (Rounds.variant a) = Ok toks)
                targets tokss ∧
        length tiles
        = sum_list (length <$> tokss) + Z.to_nat (Rounds.distractors a)) lines.
Proof.
  intros Hwf.
  destruct (main_lines a dictionary
     (λ s, Forall (λ r, ∃ targets tokss tiles,
        dict_get r "variant" = Some (JStr (Rounds.variant a)) ∧
        dict_get r "meta"
        = Some (JDict [ ("k_targets", JInt (Rounds.k_targets a));
                        ("distractors", JInt (Rounds.distractors a));
                        ("min_tokens", JInt (Rounds.min_tokens a));
                        ("max_tokens", JInt (Rounds.max_tokens a));
                        ("seed", JInt (Rounds.seed a)) ]) ∧
        dict_get r "targets" = Some (JList (JStr <$> targets)) ∧
        dict_get r "target_tokens"
        = Some (JDict (zip targets ((λ toks, JList (JStr <$> toks)) <$> tokss))) ∧
        get_tiles r = Ok tiles ∧
        NoDup targets ∧ Z.of_nat (length targets) = Rounds.k_targets a ∧
        (∀ w, w ∈ targets → w ∈ pool_of a dictionary) ∧
        Forall2 (λ w toks, word_tokens dictionary w (Rounds.variant a) = Ok toks)
                targets tokss ∧
        length tiles
        = sum_list (length <$> tokss) + Z.to_nat (Rounds.distractors a))
      (Rounds.out_f s)))
    as (run & Hm & Hlines).
  - constructor.
  - intros s s' HP (targets & g1 & tiles & tm & Hpick & Hround & _ &
                    [(_ & -> & _)|(_ & _ & -> & _)])%main_body_inv; [done|].
    apply Forall_app. split; [done|]. constructor; [|constructor].
    fold (pool_of a dictionary) in Hpick, Hround.
    assert (0 ≤ Rounds.k_targets a)%Z as Hk.
    { destruct (Z.le_gt_cases 0 (Rounds.k_targets a)) as [|Hneg]; [done|].
      destruct (pick_targets_cases dictionary (Rounds.variant a)
                  (pool_of a dictionary) (Rounds.k_targets a) (Rounds.rng s))
        as (_ & Hraise & _).
      rewrite Hraise in Hpick by lia. discriminate. }
    apply pick_targets_pool in Hpick as [Hsub Hlen].
    assert (NoDup targets) as Hnd.
    { eapply submseteq_NoDup_l; [exact Hsub|]. by apply pool_of_NoDup. }
    apply round_tiles_shape in Hround
      as (tokss & ds & Hall & Hds & _ & _ & Hsum & Hmap & Hkeys).
    specialize (Hkeys Hnd).
    exists targets, tokss, tiles. split; [done|]. split; [done|].
    split; [by rewrite get_targets_round_obj, Hkeys|]. split.
    { unfold Rounds.round_obj. cbn [dict_get].
      rewrite !decide_False by done. rewrite decide_True by done.
      do 2 f_equal. unfold dict_keys in Hkeys. subst targets.
      clear -Hall Hmap Hnd. revert tokss Hall.
      induction tm as [|[w toks] tm IH]; intros tokss Hall.
      - by apply Forall2_nil_inv_l in Hall as ->.
      - apply Forall2_cons_inv_l in Hall as (toks' & tokss' & Hw & Hall & ->).
        csimpl in *. apply NoDup_cons in Hnd as [Hw' Hnd].
        assert (toks' = toks) as ->.
        { destruct (Hmap w toks) as [[_ Hwt] _].
          - simpl. by rewrite decide_True.
          - congruence. }
        f_equal. apply IH; [|done|done].
        intros w0 toks0. split.
        + intros Hg. assert (w0 ∈ tm.*1) as Hin0.
          { apply dict_get_elem_of in Hg. apply list_elem_of_fmap.
            by exists (w0, toks0). }
          split; [done|]. apply Hmap. simpl.
          rewrite decide_False; [done|]. by intros ->.
        + intros [Hin0 Hwt]. destruct (Hmap w0 toks0) as [_ Hback].
          specialize (Hback (conj (list_elem_of_further _ _ _ Hin0) Hwt)).
          simpl in Hback. rewrite decide_False in Hback; [done|]. by intros ->. }
    split; [apply get_tiles_round_obj|]. split; [done|]. split; [lia|].
    split; [intros w Hw; by eapply elem_of_submseteq|]. split; [done|].
    by rewrite Hsum.
  - exists run. split; [done|]. by intros lines (st & HP & ->)%Hlines.
Qed.

Lemma round_record_spec_witness :
  ∃ run, Rounds.main pet_args pet_dict = Some run ∧
    ∀ lines, Rounds.out_file run = Some lines →
      Forall (λ r, ∃ targets tokss tiles,
        dict_get r "variant" = Some (JStr (Rounds.variant pet_args)) ∧
        dict_get r "meta"
        = Some (JDict [ ("k_targets", JInt (Rounds.k_targets pet_args));
                        ("distractors", JInt (Rounds.distractors pet_args));
                        ("min_tokens", JInt (Rounds.min_tokens pet_args));
                        ("max_tokens", JInt (Rounds.max_tokens pet_args));
                        ("seed", JInt (Rounds.seed pet_args)) ]) ∧
        dict_get r "targets" = Some (JList (JStr <$> targets)) ∧
        dict_get r "target_tokens"
        = Some (JDict (zip targets ((λ toks, JList (JStr <$> toks)) <$> tokss))) ∧
        get_tiles r = Ok tiles ∧
        NoDup targets ∧ Z.of_nat (length targets) = Rounds.k_targets pet_args ∧
        (∀ w, w ∈ targets → w ∈ pool_of pet_args pet_dict) ∧
        Forall2 (λ w toks, word_tokens pet_dict w (Rounds.variant pet_args)
                           = Ok toks) targets tokss ∧
        length tiles
        = sum_list (length <$> tokss) + Z.to_nat (Rounds.distractors pet_args))
        lines.
Proof.
  apply (round_record_spec pet_args pet_dict).
  apply (bool_decide_unpack _). vm_compute. reflexivity.
Defined.

(** X17: how a run ends before any round is written. With an empty pool
    it raises [RuntimeError] and the output file is never opened; with a
    non-empty pool the file is opened, and then a request for no round
    succeeds with an empty file, while a pool smaller than [k_targets], or a
    negative [k_targets], raises [ValueError] on the first attempt and
    leaves the file empty. *)
Theorem main_early_exits `{Random G} (a : Rounds.args)
    (dictionary : list (string * json)) :
  (pool_of a dictionary = [] →
   Rounds.main a dictionary = Some (Rounds.Run None (Raise RuntimeError))) ∧
  (pool_of a dictionary ≠ [] → (Rounds.n_rounds a ≤ 0)%Z →
   Rounds.main a dictionary = Some (Rounds.Run (Some []) (Ok ()))) ∧
  (pool_of a dictionary ≠ [] → (0 < Rounds.n_rounds a)%Z →
   (Z.of_nat (length (pool_of a dictionary)) < Rounds.k_targets a)%Z
   ∨ (Rounds.k_targets a < 0)%Z →
   Rounds.main a dictionary = Some (Rounds.Run (Some []) (Raise ValueError))).
Proof.
  unfold Rounds.main. rewrite build_word_pool_eq. fold (pool_of a dictionary).
  repeat split.
  - by intros ->.
  - intros Hne Hn. destruct (pool_of a dictionary) as [|w p] eqn:Hp; [done|].
    destruct (Z.to_nat _) as [|fuel]; simpl;
      (destruct (Z.ltb_spec 0 (Rounds.n_rounds a)); [lia|]); simpl;
      by (destruct (Z.ltb_spec 0 (Rounds.n_rounds a)); [lia|]).
  - intros Hne Hn Hk. destruct (pool_of a dictionary) as [|w p] eqn:Hp; [done|].
    destruct (Z.to_nat (Rounds.n_rounds a * 20)) as [|fuel] eqn:Hf; [lia|].
    cbn [Rounds.main_loop Rounds.written Rounds.attempts].
    destruct (Z.ltb_spec 0 (Rounds.n_rounds a)); [|lia].
    destruct (Z.ltb_spec 0 (Rounds.n_rounds a * 20)); [|lia]. cbn [andb].
    destruct (pick_targets_cases dictionary (Rounds.variant a) (w :: p)
                (Rounds.k_targets a) (rand_seed (Rounds.seed a)))
      as (Hsmall & Hneg & _).
    unfold Rounds.main_body. cbn [Rounds.rng].
    destruct Hk as [Hk|Hk]; [rewrite (Hsmall Hk)|rewrite (Hneg Hk)]; done.
Qed.



(** * Properties of [evaluator.py] *)

Lemma strs_of_fmap (l : list string) :
  omap (λ j, match j with JStr s => Some s | _ => None end) (JStr <$> l) = l.
Proof. induction l as [|s l IH]; csimpl; [done|]. by rewrite IH. Qed.

Lemma strs_eq_spec (xs : list json) (used : list string) :
  strs_eq xs used = true ↔ xs = JStr <$> used.
Proof.
  revert used. induction xs as [|x xs IH]; intros [|t used]; csimpl;
    try done.
  - by destruct x.
  - destruct x; try done. rewrite andb_true_iff, bool_decide_eq_true, IH.
    split; [by intros [-> ->]|by intros [= -> ->]].
Qed.

Lemma overuse_spec (used tiles : list string) :
  Evaluator.overuse (Counter used) (Counter tiles) = false
  ↔ multiset used ⊆ multiset tiles.
Proof.
  rewrite <-multiset_subset_spec. unfold Evaluator.overuse, multiset_subset.
  generalize (map_to_list (Counter used)). intros l.
  induction l as [|[t n] l IH]; simpl; [done|].
  rewrite orb_false_iff, andb_true_iff, negb_true_iff, IH. done.
Qed.

Section evaluator.
Context `{PyStr}.
Variables (tiles : list string) (dictionary : list (string * json))
          (variant : string).

Lemma judge_has_status (item : list (string * json)) (status : string)
    (d : list (string * json)) :
  Evaluator.judge (Counter tiles) dictionary variant item = inr (status, d) →
  has_status status d = true.
Proof.
  unfold Evaluator.judge. repeat case_match; intros [= <- <-]; reflexivity.
Qed.


Lemma judge_well_formed (item : list (string * json)) (word : string)
    (used : list string) (cf : string) :
  well_formed_item item word used cf →
  Evaluator.judge (Counter tiles) dictionary variant item
  = let word_norm := str_lower (str_strip word) in
    if Evaluator.overuse (Counter used) (Counter tiles)
    then inr ("hallucinated_token_or_overuse",
              Evaluator.detail word used cf "hallucinated_token_or_overuse" [])
    else if negb (bool_decide (cf = str_join used))
    then inr ("concat_field_mismatch",
              Evaluator.detail word used cf "concat_field_mismatch"
                [("expected_concat", JStr (str_join used))])
    else if negb (bool_decide
                    (word_norm
                     = Evaluator.normalize_concat_to_word (str_join used)))
    then inr ("word_normalization_mismatch",
              Evaluator.detail word used cf "word_normalization_mismatch"
                [("expected_word",
                  JStr (Evaluator.normalize_concat_to_word (str_join used)))])
    else
      match py_get dictionary word_norm with
      | JNull => inr ("not_in_dictionary",
                      Evaluator.detail word_norm used cf "not_in_dictionary" [])
      | entry =>
          match Evaluator.canonical_tokens entry variant with
          | inl e => inl e
          | inr JNull =>
              inr ("no_canonical_variant",
                   Evaluator.detail word_norm used cf "no_canonical_variant" [])
          | inr canonical =>
              if eq_str_list used canonical
              then inr ("correct_canonical",
                        Evaluator.detail word_norm used cf "correct_canonical" [])
              else inr ("alt_tokenisation",
                        Evaluator.detail word_norm used cf "alt_tokenisation"
                          [("canonical", canonical)])
          end
      end.
Proof.
  intros (Hw & Hu & Hc). unfold Evaluator.judge. rewrite Hw, Hu, Hc.
  rewrite forallb_is_str_fmap. cbn [negb]. by rewrite strs_of_fmap.
Qed.

Lemma judge_format_error (item : list (string * json)) :
  (∀ word used cf, ¬ well_formed_item item word used cf) →
  Evaluator.judge (Counter tiles) dictionary variant item
  = inr ("format_error", [("item", JDict item); ("status", JStr "format_error")]).
Proof.
  intros Hbad. unfold Evaluator.judge.
  destruct (py_get item "word") as [| | |word| |] eqn:Hw; try done.
  destruct (py_get item "used_tokens") as [| | | |used_j|] eqn:Hu; try done.
  destruct (py_get item "concat") as [| | |cf| |] eqn:Hc; try done.
  destruct (forallb is_str used_j) eqn:Hall; [|done].
  apply forallb_is_str in Hall as [used ->]. by destruct (Hbad word used cf).
Qed.

(** X20: for an item that passes the format checks the status is
    [hallucinated_token_or_overuse] exactly when its tokens are not a
    sub-multiset of the tiles; an item that fails the format checks is a
    [format_error]. Neither case raises. *)
Theorem judge_token_coverage (item : list (string * json)) :
  (∀ word used cf,
     well_formed_item item word used cf →
     (¬ multiset used ⊆ multiset tiles →
      Evaluator.judge (Counter tiles) dictionary variant item
      = inr ("hallucinated_token_or_overuse",
             Evaluator.detail word used cf "hallucinated_token_or_overuse" []))
     ∧
     (multiset used ⊆ multiset tiles →
      ∀ d, Evaluator.judge (Counter tiles) dictionary variant item
           ≠ inr ("hallucinated_token_or_overuse", d))) ∧
  ((∀ word used cf, ¬ well_formed_item item word used cf) →
   Evaluator.judge (Counter tiles) dictionary variant item
   = inr ("format_error", [("item", JDict item); ("status", JStr "format_error")])).
Proof.
  split; [|apply judge_format_error].
  intros word used cf Hwf. rewrite (judge_well_formed _ _ _ _ Hwf). cbn zeta.
  split.
  - intros Hnot. destruct (Evaluator.overuse _ _) eqn:Ho; [done|].
    by apply overuse_spec in Ho.
  - intros Hsub%overuse_spec d. rewrite Hsub.
    repeat case_match; try discriminate.
Qed.

End evaluator.

Lemma well_formed_item_dec (item : list (string * json)) :
  (∃ word used cf, well_formed_item item word used cf)
  ∨ (∀ word used cf, ¬ well_formed_item item word used cf).
Proof.
  unfold well_formed_item.
  destruct (py_get item "word") as [| | |word| |];
    try (right; intros ??? (? & _); discriminate).
  destruct (py_get item "used_tokens") as [| | | |used_j|];
    try (right; intros ??? (_ & ? & _); discriminate).
  destruct (py_get item "concat") as [| | |cf| |];
    try (right; intros ??? (_ & _ & ?); discriminate).
  destruct (forallb is_str used_j) eqn:Hall.
  - apply forallb_is_str in Hall as [used ->]. left. by exists word, used, cf.
  - right. intros w used c (_ & [= ->] & _).
    by rewrite forallb_is_str_fmap in Hall.
Qed.

Lemma has_status_unique (st s : string) (d : list (string * json)) :
  has_status st d = true → has_status s d = bool_decide (st = s).
Proof.
  unfold has_status. destruct (dict_get d "status") as [[| | |s'| |]|]; try done.
  by intros ->%bool_decide_eq_true.
Qed.

Lemma sum_dict_incr (stats : list (string * nat)) (k : string) :
  sum_list (dict_set stats k (default 0 (dict_get stats k) + 1)).*2
  = sum_list stats.*2 + 1.
Proof.
  induction stats as [|[k' n] stats IH]; csimpl; [done|].
  case_decide as Hk; csimpl; [lia|]. rewrite IH. lia.
Qed.

Section evaluator_loop.
Context `{PyStr}.
Variables (tiles : list string) (dictionary : list (string * json))
          (variant : string).

Lemma evaluate_loop_spec (outs : list (list (string * json)))
    (stats stats' : list (string * nat))
    (details details' : list (list (string * json))) :
  Evaluator.evaluate_loop (Counter tiles) dictionary variant outs stats details
  = inr (stats', details') →
  ∃ new,
    details' = details ++ new ∧
    Forall2 (λ item d, ∃ s, Evaluator.judge (Counter tiles) dictionary variant
                              item = inr (s, d)) outs new ∧
    sum_list stats'.*2 = sum_list stats.*2 + length outs ∧
    (∀ s, default 0 (dict_get stats' s)
          = default 0 (dict_get stats s)
            + length (filter (λ d, has_status s d = true) new)).
Proof.
  revert stats details. induction outs as [|item outs IH];
    intros stats details; simpl.
  - intros [= <- <-]. exists []. rewrite app_nil_r. split; [done|].
    split; [constructor|]. split; [simpl; lia|]. intros s. simpl. lia.
  - destruct (Evaluator.judge _ _ _ item) as [e|[status d]] eqn:Hj;
      [discriminate|].
    intros (new & -> & Hall & Hsum & Hcount)%IH.
    exists (d :: new). rewrite <-app_assoc. split; [done|].
    split; [constructor; [by exists status|done]|]. split.
    + rewrite Hsum, sum_dict_incr. simpl. lia.
    + intros s0. rewrite Hcount, filter_cons.
      rewrite (has_status_unique _ s0 _ (judge_has_status _ _ _ _ _ _ Hj)).
      destruct (decide (status = s0)) as [->|Hne].
      * rewrite dict_get_set_eq, bool_decide_eq_true_2 by done.
        rewrite decide_True by done. simpl. lia.
      * rewrite dict_get_set_ne, bool_decide_eq_false_2 by done.
        rewrite decide_False by done. done.
Qed.

(** X19: when [evaluate_round] returns, it has recorded one detail per item
    of the model output, in order, the counts of the summary add up to the
    number of items, and the count under each status is the number of
    details with that status. *)
Theorem evaluate_round_accounts (outs : list (list (string * json)))
    (res : list (string * json)) :
  Evaluator.evaluate_round outs tiles dictionary variant = inr res →
  ∃ stats details,
    res = [ ("summary",
             JDict ((λ kv : string * nat, (kv.1, JInt (Z.of_nat kv.2)))
                    <$> stats));
            ("details", JList (JDict <$> details)) ] ∧
    Forall2 (λ item d, ∃ s, Evaluator.judge (Counter tiles) dictionary variant
                              item = inr (s, d)) outs details ∧
    length details = length outs ∧
    sum_list stats.*2 = length outs ∧
    ∀ s, default 0 (dict_get stats s)
         = length (filter (λ d, has_status s d = true) details).
Proof.
  unfold Evaluator.evaluate_round.
  destruct (Evaluator.evaluate_loop _ _ _ _ _ _) as [e|[stats details]] eqn:Hl;
    [discriminate|].
  intros [= <-]. apply evaluate_loop_spec in Hl as (new & -> & Hall & Hsum & Hc).
  exists stats, new. simpl in *. repeat (split; [done|]).
  split; [symmetry; by eapply Forall2_length|]. split; [done|].
  intros s. by rewrite Hc.
Qed.

(** X21: an item counted [correct_canonical] is well formed, its tokens
    are a sub-multiset of the tiles and concatenate to its [concat] field,
    its normalised word is a key of the dictionary whose token list for the
    variant is the item's token list; when that list is not empty, the word
    is among the solutions the search finds for the tiles. *)
Theorem correct_canonical_is_solution (item d : list (string * json)) :
  Evaluator.judge (Counter tiles) dictionary variant item
  = inr ("correct_canonical", d) →
  ∃ word used e,
    well_formed_item item word used (str_join used) ∧
    multiset used ⊆ multiset tiles ∧
    str_lower (str_strip word)
    = Evaluator.normalize_concat_to_word (str_join used) ∧
    dict_get dictionary (str_lower (str_strip word)) = Some e ∧
    Evaluator.canonical_tokens e variant = inr (JList (JStr <$> used)) ∧
    (used ≠ [] →
     ∃ sols, solutions_of dictionary variant tiles = Ok sols ∧
             str_lower (str_strip word) ∈ sols).
Proof.
  intros Hj.
  destruct (well_formed_item_dec item) as [(word & used & cf & Hwf)|Hbad].
  2:{ rewrite (judge_format_error _ _ _ _ Hbad) in Hj. discriminate. }
  rewrite (judge_well_formed _ _ _ _ _ _ _ Hwf) in Hj. cbn zeta in Hj.
  destruct (Evaluator.overuse _ _) eqn:Ho; [discriminate|].
  apply overuse_spec in Ho.
  case_bool_decide as Hcf; [|discriminate]. subst cf. cbn [negb] in Hj.
  case_bool_decide as Hword; [|discriminate]. cbn [negb] in Hj.
  unfold py_get in Hj.
  destruct (dict_get dictionary (str_lower (str_strip word))) as [e|] eqn:He;
    [|discriminate].
  exists word, used, e. repeat (split; [done|]). cbn [default] in Hj.
  assert (Evaluator.canonical_tokens e variant = inr (JList (JStr <$> used)))
    as Hcanon.
  { destruct e; cbn [id] in Hj; try discriminate;
      (destruct (Evaluator.canonical_tokens _ variant) as [err|c] eqn:Hc;
         [discriminate|]);
      (destruct c as [| | | |xs|]; simpl in Hj; try discriminate);
      (destruct (strs_eq xs used) eqn:Heq; [|discriminate]);
      apply strs_eq_spec in Heq; by subst. }
  split; [done|]. intros Hne.
  destruct (solutions_of_spec dictionary variant tiles) as (sols & Hs & Hiff).
  exists sols. split; [done|]. apply Hiff, elem_of_brute_force.
  exists used. split; [|done]. apply elem_of_accepted. exists e.
  split; [by apply dict_get_elem_of|].
  unfold Evaluator.canonical_tokens in Hcanon.
  destruct e as [| | | | |ed]; try discriminate.
  unfold py_get in Hcanon.
  destruct (dict_get ed variant) as [x|] eqn:Hx; simpl in Hcanon;
    [|discriminate].
  destruct (truthy x) eqn:Htr; [|discriminate].
  destruct x as [| | | | |xd]; try discriminate.
  destruct (dict_get xd "tokens") as [tk|] eqn:Htk; simpl in Hcanon;
    [|discriminate].
  injection Hcanon as ->.
  unfold is_entry_ok, entry_tokens, subscript. rewrite Hx. simpl.
  rewrite Htk. simpl. rewrite forallb_is_str_fmap, length_fmap, as_strs_fmap.
  split; [|done]. destruct used; [done|]. done.
Qed.

End evaluator_loop.

Section evaluator_total.
Context `{PyStr}.
Variables (tiles : list string) (dictionary : list (string * json))
          (variant : string).

Lemma canonical_tokens_total (e : json) :
  (∀ ed, e = JDict ed →
         match py_get ed variant with
         | JDict _ => True
         | x => truthy x = false
         end) →
  ∃ c, Evaluator.canonical_tokens e variant = inr c.
Proof.
  intros Hok. unfold Evaluator.canonical_tokens.
  destruct e as [| | | | |ed]; try by eexists.
  specialize (Hok ed eq_refl).
  destruct (py_get ed variant) as [| | | | |xd]; rewrite ?Hok; try by eexists.
  destruct (truthy (JDict xd)); by eexists.
Qed.

Lemma judge_total (item : list (string * json)) :
  (∀ w ed, (w, JDict ed) ∈ dictionary →
           match py_get ed variant with
           | JDict _ => True
           | x => truthy x = false
           end) →
  ∃ s d, Evaluator.judge (Counter tiles) dictionary variant item = inr (s, d).
Proof.
  intros Hok.
  destruct (well_formed_item_dec item) as [(word & used & cf & Hwf)|Hbad].
  2:{ rewrite (judge_format_error _ _ _ _ Hbad). by eauto. }
  rewrite (judge_well_formed _ _ _ _ _ _ _ Hwf). cbn zeta.
  destruct (Evaluator.overuse _ _); [by eauto|].
  destruct (negb _); [by eauto|]. destruct (negb _); [by eauto|].
  unfold py_get.
  destruct (dict_get dictionary (str_lower (str_strip word))) as [e|] eqn:He;
    [|by eauto].
  apply dict_get_elem_of in He.
  destruct (canonical_tokens_total e) as [c Hc].
  { intros ed ->. by eapply Hok. }
  cbn [default]. destruct e; try (by eauto). cbn [id]. rewrite Hc.
  destruct c; try (by eauto); destruct (eq_str_list _ _); by eauto.
Qed.

(** X22: [evaluate_round] cannot raise when every dictionary entry holds,
    under the variant, a dict or a value that counts as false ([null], a
    missing key): the only failure is [AttributeError] on a true value that
    is not a dict. *)
Theorem evaluate_round_total (outs : list (list (string * json))) :
  (∀ w ed, (w, JDict ed) ∈ dictionary →
           match py_get ed variant with
           | JDict _ => True
           | x => truthy x = false
           end) →
  ∃ res, Evaluator.evaluate_round outs tiles dictionary variant = inr res.
Proof.
  intros Hok. unfold Evaluator.evaluate_round.
  assert (∀ stats details, ∃ r,
            Evaluator.evaluate_loop (Counter tiles) dictionary variant outs
                                    stats details = inr r) as Hloop.
  { induction outs as [|item outs' IH]; intros stats details; simpl;
      [by eauto|].
    destruct (judge_total item Hok) as (s & d & ->). apply IH. }
  destruct (Hloop [] []) as [[stats details] ->]. by eauto.
Qed.

End evaluator_total.

Lemma evaluate_round_accounts_witness :
  ∃ stats details,
    [ ("summary", JDict [("correct_canonical", JInt 1); ("format_error", JInt 1)]);
      ("details",
       JList [JDict [("word", JStr "cat"); ("used_tokens", JList [JStr "Ġcat"]);
                     ("concat", JStr "Ġcat");
                     ("status", JStr "correct_canonical")];
              JDict [("item", JDict [("word", JInt 3)]);
                     ("status", JStr "format_error")]]) ]
    = [ ("summary",
         JDict ((λ kv : string * nat, (kv.1, JInt (Z.of_nat kv.2))) <$> stats));
        ("details", JList (JDict <$> details)) ] ∧
    Forall2 (λ item d, ∃ s, Evaluator.judge (Counter ["Ġcat"; "nip"]) cat_dict
                              "sp" item = inr (s, d))
            [ [("word", JStr "Cat"); ("used_tokens", JList [JStr "Ġcat"]);
               ("concat", JStr "Ġcat")];
              [("word", JInt 3)] ] details ∧
    length details = 2 ∧
    sum_list stats.*2 = 2 ∧
    ∀ s, default 0 (dict_get stats s)
         = length (filter (λ d, has_status s d = true) details).
Proof.
  apply (evaluate_round_accounts ["Ġcat"; "nip"] cat_dict "sp"
           [ [("word", JStr "Cat"); ("used_tokens", JList [JStr "Ġcat"]);
              ("concat", JStr "Ġcat")];
             [("word", JInt 3)] ]).
  vm_compute. reflexivity.
Defined.

Lemma correct_canonical_is_solution_witness :
  ∃ word used e,
    well_formed_item [("word", JStr "Cat"); ("used_tokens", JList [JStr "Ġcat"]);
                      ("concat", JStr "Ġcat")] word used (str_join used) ∧
    multiset used ⊆ multiset ["Ġcat"; "nip"] ∧
    str_lower (str_strip word)
    = Evaluator.normalize_concat_to_word (str_join used) ∧
    dict_get cat_dict (str_lower (str_strip word)) = Some e ∧
    Evaluator.canonical_tokens e "sp" = inr (JList (JStr <$> used)) ∧
    (used ≠ [] →
     ∃ sols, solutions_of cat_dict "sp" ["Ġcat"; "nip"] = Ok sols ∧
             str_lower (str_strip word) ∈ sols).
Proof.
  apply (correct_canonical_is_solution ["Ġcat"; "nip"] cat_dict "sp"
           [("word", JStr "Cat"); ("used_tokens", JList [JStr "Ġcat"]);
            ("concat", JStr "Ġcat")]
           [("word", JStr "cat"); ("used_tokens", JList [JStr "Ġcat"]);
            ("concat", JStr "Ġcat"); ("status", JStr "correct_canonical")]).
  vm_compute. reflexivity.
Defined.

Lemma evaluate_round_total_witness :
  ∃ res, Evaluator.evaluate_round
           [ [("word", JStr "dog"); ("used_tokens", JList [JStr "Ġdog"]);
              ("concat", JStr "Ġdog")] ]
           ["Ġcat"; "nip"] cat_dict "sp" = inr res.
Proof.
  apply (evaluate_round_total ["Ġcat"; "nip"] cat_dict "sp").
  intros w ed Hin. unfold cat_dict, entry in Hin.
  apply elem_of_cons in Hin as [[= _ ->]|Hin]; [exact I|].
  apply elem_of_cons in Hin as [[= _ ->]|Hin]; [exact I|].
  by apply elem_of_nil in Hin.
Defined.

(** * Properties of [benchmark.py] *)

Lemma size_list_to_set_le (l : list Z) :
  size (list_to_set l : gset Z) ≤ length l.
Proof.
  induction l as [|x l IH]; [by rewrite list_to_set_nil, size_empty|].
  rewrite list_to_set_cons, size_union_alt, size_singleton. simpl.
  assert (size (list_to_set l ∖ {[x]} : gset Z) ≤ size (list_to_set l : gset Z)).
  { apply subseteq_size. by intros y [? _]%elem_of_difference. }
  lia.
Qed.

Lemma size_list_to_set_NoDup (l : list Z) :
  size (list_to_set l : gset Z) = length l ↔ NoDup l.
Proof.
  split; [|apply size_list_to_set].
  induction l as [|x l IH]; [constructor|].
  rewrite list_to_set_cons. simpl. intros Hsize.
  pose proof (size_list_to_set_le l) as Hle.
  destruct (decide (x ∈ l)) as [Hin|Hnin].
  - assert ({[x]} ∪ list_to_set l = (list_to_set l : gset Z)) as Heq.
    { apply subseteq_union_1_L, singleton_subseteq_l.
      by apply elem_of_list_to_set. }
    rewrite Heq in Hsize. lia.
  - constructor; [done|]. apply IH.
    rewrite size_union, size_singleton in Hsize; [lia|].
    apply disjoint_singleton_l. by rewrite elem_of_list_to_set.
Qed.

Lemma lookups_submseteq (tiles : list string) (idxs : list nat) :
  NoDup idxs → omap (λ i, tiles !! i) idxs ⊆+ tiles.
Proof.
  intros Hnd.
  assert (omap (λ i, tiles !! i) idxs
          = (omap (λ i, pair i <$> tiles !! i) idxs).*2) as ->.
  { clear. induction idxs as [|i idxs IH]; [done|]. cbn [omap list_omap].
    destruct (tiles !! i); csimpl; by rewrite IH. }
  assert ((imap pair tiles).*2 = tiles) as Htiles.
  { rewrite fmap_imap, (imap_ext _ (const id)) by done.
    by rewrite imap_const, list_fmap_id. }
  trans ((imap pair tiles).*2); [|by rewrite Htiles].
  apply fmap_submseteq. apply NoDup_submseteq.
  - induction Hnd as [|i idxs Hi Hnd IH]; [constructor|]. cbn [omap list_omap].
    destruct (tiles !! i) as [x|]; simpl; [|done]. constructor; [|done].
    intros (j & Hj & Hx)%list_elem_of_omap.
    destruct (tiles !! j); simpl in Hx; [|done]. by injection Hx as <- <-.
  - intros [i x] (j & _ & Hx)%list_elem_of_omap.
    destruct (tiles !! j) as [y|] eqn:Hy; simpl in Hx; [|done].
    injection Hx as <- <-. by apply (elem_of_lookup_imap_2 pair).
Qed.

Lemma submseteq_multiset (xs ys : list string) :
  xs ⊆+ ys → multiset xs ⊆ multiset ys.
Proof.
  intros [k Hk]%submseteq_Permutation.
  rewrite (multiset_perm _ _ Hk), multiset_app. multiset_solver.
Qed.

(** The quotient of two counts, the first at most the second. *)
Lemma ratio_spec (num den : nat) :
  num ≤ den →
  (0 <= Benchmark.ratio num den <= 1)%Q ∧
  ((Benchmark.ratio num den == 0)%Q ↔ num = 0 ∨ den = 0) ∧
  ((Benchmark.ratio num den == 1)%Q ↔ num = den ∧ den ≠ 0).
Proof.
  intros Hle. unfold Benchmark.ratio.
  destruct (Nat.eqb_spec den 0) as [->|Hden].
  { split; [split; discriminate|]. split.
    - split; [by right|reflexivity].
    - split; [discriminate|]. by intros [_ ?]. }
  assert (inject_Z (Z.of_nat num) / inject_Z (Z.of_nat den)
          == Z.of_nat num # Pos.of_nat den)%Q as ->.
  { rewrite Qmake_Qdiv. rewrite <-(Znat.positive_nat_Z (Pos.of_nat den)).
    by rewrite Nat2Pos.id. }
  unfold Qle, Qeq. simpl.
  assert (Z.pos (Pos.of_nat den) = Z.of_nat den) as ->.
  { rewrite <-(Znat.positive_nat_Z (Pos.of_nat den)). by rewrite Nat2Pos.id. }
  repeat split; try lia.
Qed.

Lemma size_intersection_eq (X Y : gset string) :
  size (X ∩ Y) = size Y ↔ Y ⊆ X.
Proof.
  split.
  - intros Hsize.
    assert (X ∩ Y ≡ Y) as Heq.
    { apply set_subseteq_size_equiv; [|lia].
      by intros y [_ ?]%elem_of_intersection. }
    intros y Hy. apply Heq in Hy. by apply elem_of_intersection in Hy as [? _].
  - intros Hsub. f_equal. apply leibniz_equiv. intros y.
    rewrite elem_of_intersection. split; [by intros [_ ?]|]. intros Hy.
    split; [by apply Hsub|done].
Qed.

Section benchmark.
Context `{PyStr}.
Variable tiles : list string.

(** What an item does to the tally: it is counted as rejected, or it adds
    the word built from tiles at pairwise different positions. *)
Lemma count_item_cases (st : Benchmark.tally) (it : json) :
  let st' := Benchmark.count_item tiles st it in
  (Benchmark.fmt_err st' + Benchmark.index_oob st' + Benchmark.index_reuse st'
   = Benchmark.fmt_err st + Benchmark.index_oob st + Benchmark.index_reuse st + 1
   ∧ Benchmark.pred_words st' = Benchmark.pred_words st)
  ∨
  (Benchmark.fmt_err st' = Benchmark.fmt_err st ∧
   Benchmark.index_oob st' = Benchmark.index_oob st ∧
   Benchmark.index_reuse st' = Benchmark.index_reuse st ∧
   ∃ idxs used,
     NoDup idxs ∧ Forall (λ i, i < length tiles) idxs ∧
     Forall2 (λ i t, tiles !! i = Some t) idxs used ∧
     Benchmark.pred_words st'
     = Benchmark.pred_words st
       ∪ {[ Benchmark.normalize_concat_to_word (str_join used) ]}).
Proof.
  unfold Benchmark.count_item.
  destruct it as [| | | | |d]; try (left; simpl; split; [lia|done]).
  destruct (dict_get d "idx") as [[| | | |xs|]|];
    try (left; simpl; split; [lia|done]).
  destruct (mapM Benchmark.as_int xs) as [zs|];
    [|left; simpl; split; [lia|done]].
  destruct (existsb _ zs) eqn:Hoob; [left; simpl; split; [lia|done]|].
  destruct (size (list_to_set zs : gset Z) =? length zs) eqn:Hsize;
    [|left; simpl; split; [lia|done]].
  right. simpl. repeat (split; [done|]).
  apply Nat.eqb_eq, size_list_to_set_NoDup in Hsize.
  assert (Forall (λ x, (0 ≤ x < Z.of_nat (length tiles))%Z) zs) as Hrange.
  { apply Forall_forall. intros x Hx%list_elem_of_In.
    rewrite <-not_true_iff_false, existsb_exists in Hoob.
    destruct (decide (0 ≤ x < Z.of_nat (length tiles))%Z) as [|Hout]; [done|].
    destruct Hoob. exists x. split; [done|]. apply orb_true_iff.
    destruct (decide (x < 0)%Z); [left; by apply Z.ltb_lt|].
    right. apply Z.leb_le. lia. }
  exists (Z.to_nat <$> zs), (omap (λ i, tiles !! Z.to_nat i) zs).
  split; [|split; [|split]].
  - apply NoDup_fmap_2_strong; [|done]. intros x y Hx Hy Heq.
    rewrite Forall_forall in Hrange.
    pose proof (Hrange _ Hx). pose proof (Hrange _ Hy). lia.
  - apply Forall_fmap. eapply Forall_impl; [exact Hrange|]. simpl. lia.
  - clear Hoob Hsize. induction Hrange as [|x zs' Hx _ IH]; [constructor|].
    csimpl. destruct (lookup_lt_is_Some_2 tiles (Z.to_nat x)) as [t Ht]; [lia|].
    rewrite Ht. simpl. by constructor.
  - done.
Qed.

Lemma count_outputs_invariant (outs : list json) (st : Benchmark.tally)
    (n : nat) :
  Benchmark.fmt_err st + Benchmark.index_oob st + Benchmark.index_reuse st
  + size (Benchmark.pred_words st) ≤ n →
  (∀ w, w ∈ Benchmark.pred_words st →
        ∃ used, used ⊆+ tiles ∧
                w = Benchmark.normalize_concat_to_word (str_join used)) →
  let st' := foldl (Benchmark.count_item tiles) st outs in
  Benchmark.fmt_err st' + Benchmark.index_oob st' + Benchmark.index_reuse st'
  + size (Benchmark.pred_words st') ≤ n + length outs ∧
  ∀ w, w ∈ Benchmark.pred_words st' →
       ∃ used, used ⊆+ tiles ∧
               w = Benchmark.normalize_concat_to_word (str_join used).
Proof.
  revert st n. induction outs as [|it outs IH]; intros st n Hn Hw; simpl.
  - split; [lia|done].
  - replace (n + S (length outs)) with (S n + length outs) by lia.
    apply IH.
    + destruct (count_item_cases st it) as [[Hc ->]|(-> & -> & -> & idxs & used
                                                    & _ & _ & _ & ->)];
        [lia|].
      rewrite size_union_alt.
      assert (size ({[Benchmark.normalize_concat_to_word (str_join used)]}
                    ∖ Benchmark.pred_words st : gset string) ≤ 1).
      { rewrite <-(size_singleton (C:=gset string)
                     (Benchmark.normalize_concat_to_word (str_join used))).
        apply subseteq_size. by intros y [? _]%elem_of_difference. }
      lia.
    + destruct (count_item_cases st it) as [[_ ->]|(_ & _ & _ & idxs & used
                                                    & Hnd & Hr & Hall & ->)];
        [done|].
      intros w [Hin| ->%elem_of_singleton]%elem_of_union; [by apply Hw|].
      exists used. split; [|done].
      assert (used = omap (λ i, tiles !! i) idxs) as ->.
      { clear -Hall. induction Hall as [|i t idxs used Hi _ IH]; [done|].
        cbn [omap list_omap]. rewrite Hi. simpl. by rewrite <-IH. }
      by apply lookups_submseteq.
Qed.

Lemma count_outputs_spec (outputs : list json) :
  let st := Benchmark.count_outputs outputs tiles in
  Benchmark.fmt_err st + Benchmark.index_oob st + Benchmark.index_reuse st
  + size (Benchmark.pred_words st) ≤ length outputs `min` Benchmark.K_MAX ∧
  ∀ w, w ∈ Benchmark.pred_words st →
       ∃ used, used ⊆+ tiles ∧
               w = Benchmark.normalize_concat_to_word (str_join used).
Proof.
  destruct (count_outputs_invariant (take Benchmark.K_MAX outputs)
              (Benchmark.Tally 0 0 0 ∅) 0) as [Hle Hall].
  - cbn [Benchmark.fmt_err Benchmark.index_oob Benchmark.index_reuse
         Benchmark.pred_words].
    rewrite size_empty. lia.
  - intros w Hw. by apply not_elem_of_empty in Hw.
  - split; [|exact Hall].
    unfold Benchmark.count_outputs. rewrite length_take in Hle. lia.
Qed.

(** X23: [evaluate_outputs] looks at no more than [K_MAX] items: the
    rejected items and the distinct predicted words together number at most
    [min(len(outputs), K_MAX)]. The valid hits are at most the predictions
    and at most the solutions, and each of the three ratios lies between 0
    and 1. The precision is 0 exactly when no predicted word is a solution
    (in particular when nothing was predicted) and 1 exactly when something
    was predicted and every predicted word is a solution. The two recalls
    divide by [max(1, size)]: a recall is 1 exactly when its reference set
    is not empty and every word of it was predicted, so a round without
    solutions has full recall 0. *)
Theorem evaluate_outputs_bounds (outputs : list json)
    (all_solutions targets : gset string) :
  let words := Benchmark.pred_words (Benchmark.count_outputs outputs tiles) in
  let m := Benchmark.evaluate_outputs outputs tiles all_solutions targets in
  Benchmark.format_errors m + Benchmark.m_index_oob m
  + Benchmark.m_index_reuse m + Benchmark.n_pred_unique m
  ≤ length outputs `min` Benchmark.K_MAX ∧
  Benchmark.n_valid_unique m ≤ Benchmark.n_pred_unique m ∧
  Benchmark.n_valid_unique m ≤ Benchmark.n_solutions m ∧
  (0 <= Benchmark.precision m <= 1)%Q ∧
  (0 <= Benchmark.full_recall m <= 1)%Q ∧
  (0 <= Benchmark.target_recall m <= 1)%Q ∧
  ((Benchmark.precision m == 0)%Q ↔ words ## all_solutions) ∧
  ((Benchmark.precision m == 1)%Q ↔ words ≠ ∅ ∧ words ⊆ all_solutions) ∧
  (Benchmark.full_recall m
   == inject_Z (Z.of_nat (Benchmark.n_valid_unique m))
      / inject_Z (Z.of_nat (1 `max` Benchmark.n_solutions m)))%Q ∧
  (Benchmark.target_recall m
   == inject_Z (Z.of_nat (size (words ∩ targets)))
      / inject_Z (Z.of_nat (1 `max` Benchmark.n_targets m)))%Q ∧
  ((Benchmark.full_recall m == 1)%Q
   ↔ all_solutions ≠ ∅ ∧ all_solutions ⊆ words) ∧
  ((Benchmark.target_recall m == 1)%Q ↔ targets ≠ ∅ ∧ targets ⊆ words).
Proof.
  unfold Benchmark.evaluate_outputs. cbn zeta.
  cbn [Benchmark.format_errors Benchmark.m_index_oob Benchmark.m_index_reuse
       Benchmark.n_pred_unique Benchmark.n_valid_unique Benchmark.n_solutions
       Benchmark.n_targets Benchmark.precision Benchmark.full_recall
       Benchmark.target_recall].
  set (st := Benchmark.count_outputs outputs tiles).
  set (words := Benchmark.pred_words st).
  assert (size (words ∩ all_solutions) ≤ size words) as Hv1.
  { apply subseteq_size. by intros y [? _]%elem_of_intersection. }
  assert (size (words ∩ all_solutions) ≤ size all_solutions) as Hv2.
  { apply subseteq_size. by intros y [_ ?]%elem_of_intersection. }
  assert (size (words ∩ targets) ≤ size targets) as Hv3.
  { apply subseteq_size. by intros y [_ ?]%elem_of_intersection. }
  destruct (ratio_spec (size (words ∩ all_solutions)) (size words) Hv1)
    as (Hp01 & Hp0 & Hp1).
  destruct (ratio_spec (size (words ∩ all_solutions))
              (1 `max` size all_solutions)) as (Hf01 & Hf0 & Hf1); [lia|].
  destruct (ratio_spec (size (words ∩ targets)) (1 `max` size targets))
    as (Ht01 & Ht0 & Ht1); [lia|].
  split; [apply (count_outputs_spec outputs)|].
  split; [done|]. split; [done|]. split; [done|]. split; [done|].
  split; [done|]. split; [|split; [|split; [|split; [|split]]]].
  - rewrite Hp0. split.
    + intros [Hz|Hz].
      * apply size_empty_inv in Hz. intros y H1 H2.
        apply (not_elem_of_empty (C:=gset string) y), Hz.
        by apply elem_of_intersection.
      * apply size_empty_inv in Hz. intros y H1 _.
        by apply (not_elem_of_empty (C:=gset string) y), Hz.
    + intros Hdisj. left. apply size_empty_iff. intros y.
      split; [|by intros ?%elem_of_empty].
      intros [H1 H2]%elem_of_intersection. by destruct (Hdisj y).
  - rewrite Hp1. split.
    + intros [Hsize Hne]. split.
      * intros Hempty. apply Hne. rewrite Hempty. apply size_empty.
      * apply size_intersection_eq. by rewrite (comm_L (∩)).
    + intros [Hne Hsub]. split.
      * rewrite (comm_L (∩)). by apply size_intersection_eq.
      * intros Hz%size_empty_inv. apply Hne. by apply leibniz_equiv.
  - unfold Benchmark.ratio.
    destruct (Nat.eqb_spec (1 `max` size all_solutions) 0); [lia|].
    reflexivity.
  - unfold Benchmark.ratio.
    destruct (Nat.eqb_spec (1 `max` size targets) 0); [lia|]. reflexivity.
  - rewrite Hf1. split.
    + intros [Hsize _]. assert (size all_solutions ≠ 0) as Hne by lia. split.
      * intros Hempty. apply Hne. rewrite Hempty. apply size_empty.
      * apply size_intersection_eq. lia.
    + intros [Hne Hsub]. split; [|lia].
      assert (size all_solutions ≠ 0) as Hpos.
      { intros Hz%size_empty_inv. apply Hne. by apply leibniz_equiv. }
      apply size_intersection_eq in Hsub. lia.
  - rewrite Ht1. split.
    + intros [Hsize _]. assert (size targets ≠ 0) as Hne by lia. split.
      * intros Hempty. apply Hne. rewrite Hempty. apply size_empty.
      * apply size_intersection_eq. lia.
    + intros [Hne Hsub]. split; [|lia].
      assert (size targets ≠ 0) as Hpos.
      { intros Hz%size_empty_inv. apply Hne. by apply leibniz_equiv. }
      apply size_intersection_eq in Hsub. lia.
Qed.

(** X24: every predicted word is the normalised concatenation of tiles
    taken at pairwise different positions, so its tokens are a sub-multiset
    of the tiles: a tile is never used more often than it is offered. *)
Theorem predicted_words_respect_tiles (outputs : list json) (w : string) :
  w ∈ Benchmark.pred_words (Benchmark.count_outputs outputs tiles) →
  ∃ used, used ⊆+ tiles ∧ multiset used ⊆ multiset tiles ∧
          w = Benchmark.normalize_concat_to_word (str_join used).
Proof.
  intros Hw.
  destruct (count_outputs_spec outputs) as [_ Hall].
  destruct (Hall w Hw) as (used & Hsub & ->). exists used.
  split; [done|]. split; [by apply submseteq_multiset|done].
Qed.

End benchmark.

Lemma predicted_words_respect_tiles_witness :
  ∃ used, used ⊆+ ["Ġcat"; "nip"] ∧ multiset used ⊆ multiset ["Ġcat"; "nip"] ∧
          "catnip" = Benchmark.normalize_concat_to_word (str_join used).
Proof.
  apply (predicted_words_respect_tiles ["Ġcat"; "nip"]
           [JDict [("idx", JList [JInt 0; JInt 1])];
            JDict [("idx", JList [JInt 0; JInt 0])];
            JDict [("idx", JList [JInt 2])]; JStr "x"]).
  apply (bool_decide_unpack _). vm_compute. reflexivity.
Defined.

Example evaluate_outputs_run :
  Benchmark.evaluate_outputs
    [JDict [("idx", JList [JInt 0; JInt 1])];
     JDict [("idx", JList [JInt 0; JInt 0])];
     JDict [("idx", JList [JInt 2])]; JStr "x";
     JDict [("idx", JList [JBool true])]]
    ["Ġcat"; "nip"] {[ "cat"; "catnip" ]} {[ "catnip" ]}
  = Benchmark.Metrics 5 2 1 2 1 (1 / 2)%Q (1 / 2)%Q (1 / 1)%Q 1 1 1.
Proof. vm_compute. reflexivity. Qed.
